(** * Stealth addresses and linkable ring signatures (aploune)

    A shallow embedding of [ring.go] and [stealth.go] and the proofs of
    their specification.

    The two Go files sit on top of a curve library ([CurvePoint] and its
    methods) and of [crypto/sha256]; neither is part of the two files, so
    both enter as interfaces ([Curve], [Sha256]).  [*big.Int] values that a
    caller can reach (the secret key handed to [Signature], the entries of
    a signature's [Ctlist]) are cells of a heap, because the code reduces
    them in place; [big.Int] values that never leave a function are plain
    integers. *)

From Stdlib Require Import ZArith List Lia.
From Stdlib.Strings Require Import Byte.
From stdpp Require Import base option list gmap.

Local Open Scope Z_scope.

(** ** Bytes and integers *)

Definition byte_to_Z (b : byte) : Z := Z.of_N (Byte.to_N b).

Definition byte_of_Z (z : Z) : byte :=
  default x00 (Byte.of_N (Z.to_N (z mod 256))).

(** [big.Int.SetBytes]: the bytes are a big-endian unsigned integer. *)
Definition SetBytes (data : list byte) : Z :=
  fold_left (fun z b => z * 256 + byte_to_Z b) data 0.

(** ring.go, [convert]. *)
Definition convert (data : list byte) : Z := SetBytes data.

(** [var out [32]byte]: a zeroed 32-byte array. *)
Definition zero32 : list byte := replicate 32 x00.

(** [var messageHash [32]byte; copy(messageHash[:], message)]: [copy] moves
    [min 32 (len message)] bytes, the rest of the array stays zero. *)
Definition copy32 (message : list byte) : list byte :=
  take 32 message ++ replicate (32 - length message)%nat x00.

(** Go's [int] on a 64-bit platform: sums wrap around in two's complement. *)
Definition int_wrap (z : Z) : Z := (z + 2 ^ 63) mod 2 ^ 64 - 2 ^ 63.
Definition MaxInt : Z := 2 ^ 63 - 1.
Definition MinInt : Z := - 2 ^ 63.

(** [big.Int.Bytes]: big-endian bytes of the absolute value, no leading
    zero; the empty slice for 0. *)
Fixpoint pos_bytes (fuel : nat) (z : Z) (acc : list byte) : list byte :=
  match fuel with
  | O => acc
  | S fuel' =>
      if decide (z <= 0) then acc
      else pos_bytes fuel' (z / 256) (byte_of_Z (z mod 256) :: acc)
  end.

Definition Bytes (z : Z) : list byte :=
  pos_bytes (Z.to_nat (Z.log2 (Z.abs z)) + 1) (Z.abs z) [].

(** ** The interfaces the two files are written against *)

(** The curve library.  [CurvePoint] is a Go struct compared with [==]
    ([PubKeyIndex]), hence the decidable equality.  [Order] is the order
    of the base point's group, a positive integer, so that Go's Euclidean
    [big.Int.Mod] by it is [Z.modulo]; [Marshal] yields the 64 bytes
    [x || y], so that [Marshal()[:32]] is in range. *)
Class Curve := {
  CurvePoint : Type;
  CurvePoint_eq_dec :: EqDecision CurvePoint;
  Order : Z;
  Order_pos : 0 < Order;
  ScalarBaseMult : Z -> CurvePoint;
  ScalarMult : CurvePoint -> Z -> CurvePoint;
  Add : CurvePoint -> CurvePoint -> CurvePoint;
  IsOnCurve : CurvePoint -> bool;
  Marshal : CurvePoint -> list byte;
  Marshal_length : forall P, length (Marshal P) = 64%nat;
  NewCurvePointFromHash : list byte -> CurvePoint;
}.

(** [crypto/sha256.Sum256]. *)
Class Sha256 := { Sum256 : list byte -> list byte }.

(** Modelled from the spec: the algebraic properties of the curve
    library, which is not part of the two files.  For scalars as the code
    passes them (never negative), scalar multiplication is an action of
    the integers modulo [Order] on the group, and base multiplication by a
    valid secret lands on the curve.  Nothing is said of the on-curve test
    of the neutral element [[0]G]. *)
Class CurveLaws (C : Curve) : Prop := {
  ScalarBaseMult_add : forall a b, 0 <= a -> 0 <= b ->
    Add (ScalarBaseMult a) (ScalarBaseMult b) = ScalarBaseMult (a + b);
  ScalarBaseMult_mul : forall a b, 0 <= a -> 0 <= b ->
    ScalarMult (ScalarBaseMult a) b = ScalarBaseMult (a * b);
  ScalarBaseMult_mod : forall a, 0 <= a ->
    ScalarBaseMult (a mod Order) = ScalarBaseMult a;
  ScalarMult_add : forall P a b, 0 <= a -> 0 <= b ->
    Add (ScalarMult P a) (ScalarMult P b) = ScalarMult P (a + b);
  ScalarMult_mul : forall P a b, 0 <= a -> 0 <= b ->
    ScalarMult (ScalarMult P a) b = ScalarMult P (a * b);
  ScalarMult_mod : forall P a, 0 <= a ->
    ScalarMult P (a mod Order) = ScalarMult P a;
  IsOnCurve_base : forall k, 1 <= k < Order ->
    IsOnCurve (ScalarBaseMult k) = true;
}.

(** ** Results of Go calls *)

(** The errors [NewStealthSession] builds with [fmt.Errorf]; each carries
    the value its format string prints. *)
Inductive error :=
  | InvalidSecretKey (secret : Z)      (* "Invalid secret key: %v" *)
  | NullPublicKey                      (* "Null public key provided" *)
  | StealthPubFailed (i : Z).          (* "Could not derive stealth public key %v" *)

(** A call returns a value, returns a non-nil [error], or panics (nil
    dereference, index out of range). *)
Inductive res (A : Type) :=
  | Val (a : A)
  | Err (e : error)
  | Panic.
Arguments Val {A} a.
Arguments Err {A} e.
Arguments Panic {A}.

Global Instance res_ret : MRet res := fun _ a => Val a.
Global Instance res_bind : MBind res := fun _ _ f m =>
  match m with
  | Val a => f a
  | Err e => Err e
  | Panic => Panic
  end.

Global Instance res_fmap : FMap res := fun _ _ f m =>
  match m with
  | Val a => Val (f a)
  | Err e => Err e
  | Panic => Panic
  end.

Definition is_val {A : Type} (x : res A) : bool :=
  match x with
  | Val _ => true
  | _ => false
  end.

(** [for j := 0; j < n; j++ { body }], when the body changes neither [j]
    nor [n]: [fuel] iterations from index [j]. *)
Fixpoint for_loop {F : Type -> Type} `{!MBind F, !MRet F} {S : Type}
    (fuel : nat) (j : nat) (body : nat -> S -> F S) (s : S) : F S :=
  match fuel with
  | O => mret s
  | Datatypes.S fuel' => s' ← body j s; for_loop fuel' (Datatypes.S j) body s'
  end.

(** [xs[i]] on a slice: a run-time panic when [i] is out of range. *)
Definition index {A : Type} (xs : list A) (i : nat) : res A :=
  match xs !! i with
  | Some x => Val x
  | None => Panic
  end.

(** ** ring.go: the ring and its hash *)

Section RingDefs.
Context {C : Curve} {H : Sha256}.

(** [PrivKeys] are pointers to [big.Int]s: heap locations. *)
Record Ring := {
  PubKeys : list CurvePoint;
  PrivKeys : list positive;
}.

(** [Ring.PublicKeysHashed]. *)
Definition PublicKeysHashed (r : Ring) : res (list byte) :=
  for_loop (length (PubKeys r)) 0
    (fun i out =>
       pk ← index (PubKeys r) i;
       mret (Sum256 (out ++ Marshal pk)))
    zero32.

(** The recurrence of the specification: a left fold over the keys. *)
Definition public_keys_hashed_spec (pubs : list CurvePoint) : list byte :=
  fold_left (fun h pk => Sum256 (h ++ Marshal pk)) pubs zero32.

(** [Ring.PubKeyIndex]: the [range] loop, [i] the index of the head. *)
Fixpoint PubKeyIndex_from (i : Z) (pubs : list CurvePoint) (pk : CurvePoint) : Z :=
  match pubs with
  | [] => -1
  | pub :: rest =>
      if decide (pub = pk) then i else PubKeyIndex_from (i + 1) rest pk
  end.

Definition PubKeyIndex (r : Ring) (pk : CurvePoint) : Z :=
  PubKeyIndex_from 0 (PubKeys r) pk.

(** Modelled from the spec: [point.parameter_point_add(t, c)] is
    [[t]G + [c]point]; the method belongs to the curve library. *)
Definition ParameterPointAdd (P : CurvePoint) (t c : Z) : CurvePoint :=
  Add (ScalarBaseMult t) (ScalarMult P c).

(** Modelled from the spec: [point.hash_point_add(y, t, c)] is
    [[t]point + [c]y]; the method belongs to the curve library. *)
Definition HashPointAdd (P y : CurvePoint) (t c : Z) : CurvePoint :=
  Add (ScalarMult P t) (ScalarMult y c).

End RingDefs.

(** ** The heap of [big.Int]s and the random source *)

(** [heap] maps the address of every live [big.Int] the caller can reach to
    its value; a pointer outside its domain is nil.  [tape] is the sequence
    of values the random source will hand out, [drawn] how many are used. *)
Record state := {
  heap : gmap positive Z;
  tape : nat -> Z;
  drawn : nat;
}.

Definition set_heap (h : gmap positive Z) (s : state) : state :=
  {| heap := h; tape := tape s; drawn := drawn s |}.

Definition M (A : Type) : Type := state -> res (A * state).

Global Instance M_ret : MRet M := fun _ a s => Val (a, s).
Global Instance M_bind : MBind M := fun _ _ f m s =>
  match m s with
  | Val (a, s') => f a s'
  | Err e => Err e
  | Panic => Panic
  end.

Definition lift {A : Type} (x : res A) : M A := fun s =>
  match x with
  | Val a => Val (a, s)
  | Err e => Err e
  | Panic => Panic
  end.

(** The value a call returns, and the heap it leaves. *)
Definition value {A : Type} (x : res (A * state)) : res A :=
  match x with
  | Val (a, _) => Val a
  | Err e => Err e
  | Panic => Panic
  end.

Definition heap_after {A : Type} (x : res (A * state))
    : option (gmap positive Z) :=
  match x with
  | Val (_, s) => Some (heap s)
  | _ => None
  end.

(** Reading through a [*big.Int]; a nil pointer panics. *)
Definition load (p : positive) : M Z := fun s =>
  match heap s !! p with
  | Some v => Val (v, s)
  | None => Panic
  end.

(** Writing through a [*big.Int]; a nil pointer panics. *)
Definition store (p : positive) (v : Z) : M unit := fun s =>
  match heap s !! p with
  | Some _ => Val (tt, set_heap (<[p := v]> (heap s)) s)
  | None => Panic
  end.

(** [new(big.Int)] set to [v]: a cell at an address not in use. *)
Definition alloc (v : Z) : M positive := fun s =>
  let p := fresh (dom (heap s)) in
  Val (p, set_heap (<[p := v]> (heap s)) s).

(** [xs[i] = v] on a slice, [i] a Go [int]. *)
Definition assign {A : Type} (xs : list A) (i : Z) (v : A) : res (list A) :=
  if decide (0 <= i < Z.of_nat (length xs))
  then Val (<[Z.to_nat i := v]> xs)
  else Panic.

Section RingSignature.
Context {C : Curve} {H : Sha256}.

(** [x.Mod(x, N)]: the cell [x] is overwritten with its residue. *)
Definition Mod_in_place (x : positive) : M unit :=
  v ← load x; store x (v mod Order).

(** Modelled from the spec: [CurvePoint{}.RandomN()], a method of the
    curve library, returns a new [big.Int] holding the next draw of the
    random source; that draws lie in [[1, N)] is a hypothesis where it
    matters. *)
Definition RandomN : M positive := fun s =>
  alloc (tape s (drawn s))
    {| heap := heap s; tape := tape s; drawn := Datatypes.S (drawn s) |}.

Record RingSignature := {
  Tau : CurvePoint;
  Ctlist : list positive;
}.

(** The variables of [Signature] that its loop updates.  [a] and [b] are
    assigned in every iteration before their only use, so they are local
    to the body here. *)
Record sign_vars := {
  ctlist : list positive;
  ri : option positive;
  csum : Z;
  hashAcc : list byte;
}.

(** One iteration of the loop of [Signature].  The conditions
    [j != signer] and [j == signer] of its two [if]s exclude each other
    and the first body changes neither, so they form one conditional. *)
Definition Signature_body (r : Ring) (hashp hashSP : CurvePoint)
    (signer : Z) (j : nat) (v : sign_vars) : M sign_vars :=
  '(a, b, v') ←
    (if decide (Z.of_nat j ≠ signer) then
       cj ← RandomN;
       tj ← RandomN;
       pkj ← lift (index (PubKeys r) j);
       vc ← load cj;
       vt ← load tj;
       let a := ParameterPointAdd pkj vt vc in
       let b := HashPointAdd hashp hashSP vt vc in
       mret (a, b, {| ctlist := ctlist v ++ [cj; tj];
                      ri := ri v;
                      csum := csum v + vc;
                      hashAcc := hashAcc v |})
     else
       dummy ← alloc 0;
       ri' ← RandomN;
       vr ← load ri';
       let a := ScalarBaseMult vr in
       let b := ScalarMult hashp vr in
       mret (a, b, {| ctlist := ctlist v ++ [dummy; dummy];
                      ri := Some ri';
                      csum := csum v;
                      hashAcc := hashAcc v |}));
  mret {| ctlist := ctlist v';
          ri := ri v';
          csum := csum v';
          hashAcc := Sum256 (hashAcc v' ++ (Marshal a ++ Marshal b)) |}.

(** [Ring.Signature].  [pk] is the caller's [*big.Int]; the returned
    [error] is always nil, so the result is the signature. *)
Definition Signature (r : Ring) (pk : positive) (message : list byte)
    (signer : Z) : M RingSignature :=
  let N := Order in
  let messageHash := copy32 message in
  let hashp := NewCurvePointFromHash messageHash in
  Mod_in_place pk;;
  x ← load pk;
  let hashSP := ScalarMult hashp x in
  let hashAcc0 := Sum256 (take 32 (Marshal hashp) ++ Marshal hashSP) in
  let n := length (PubKeys r) in
  v ← for_loop n 0 (Signature_body r hashp hashSP signer)
        {| ctlist := []; ri := None; csum := 0; hashAcc := hashAcc0 |};
  let hashb := SetBytes (hashAcc v) mod N in
  let csum' := csum v mod N in
  c ← alloc ((hashb - csum') mod N);
  vc ← load c;
  x' ← load pk;
  let cx := (vc * x') mod N in
  ti ← match ri v with
       | Some ri' => vr ← load ri'; alloc ((vr - cx) mod N)
       | None => fun _ => Panic
       end;
  ct1 ← lift (assign (ctlist v) (2 * signer) c);
  ct2 ← lift (assign ct1 (2 * signer + 1) ti);
  mret {| Tau := hashSP; Ctlist := ct2 |}.

Record verify_vars := {
  v_hashAcc : list byte;
  v_csum : Z;
}.

(** One iteration of the loop of [VerifySignature]. *)
Definition VerifySignature_body (r : Ring) (hashp tau : CurvePoint)
    (ctl : list positive) (j : nat) (v : verify_vars) : M verify_vars :=
  cj ← lift (index ctl (2 * j));
  tj ← lift (index ctl (2 * j + 1));
  Mod_in_place cj;;
  Mod_in_place tj;;
  pkj ← lift (index (PubKeys r) j);
  vc ← load cj;
  vt ← load tj;
  let yc := ScalarMult pkj vc in
  let gt := Add (ScalarBaseMult vt) yc in
  let tauc := ScalarMult tau vc in
  let Hpt := Add (ScalarMult hashp vt) tauc in
  mret {| v_hashAcc := Sum256 (v_hashAcc v ++ (Marshal gt ++ Marshal Hpt));
          v_csum := (v_csum v + vc) mod Order |}.

(** [Ring.VerifySignature]. *)
Definition VerifySignature (r : Ring) (message : list byte)
    (sigma : RingSignature) : M bool :=
  let tau := Tau sigma in
  let ctl := Ctlist sigma in
  let n := length (PubKeys r) in
  let N := Order in
  let messageHash := copy32 message in
  let hashp := NewCurvePointFromHash messageHash in
  let hashAcc0 := Sum256 (take 32 (Marshal hashp) ++ Marshal tau) in
  v ← for_loop n 0 (VerifySignature_body r hashp tau ctl)
        {| v_hashAcc := hashAcc0; v_csum := 0 |};
  let hashout := SetBytes (v_hashAcc v) mod N in
  let csum' := v_csum v mod N in
  mret (bool_decide (csum' = hashout)).

End RingSignature.

(** ** The two loops of ring.go in closed form

    Pure counterparts of the loops above, over the integers that the heap
    cells hold.  The proofs below show that the loops compute them. *)

Section RingClosedForms.
Context {C : Curve} {H : Sha256}.

(** The cells [ps], each overwritten with its residue, in order. *)
Definition reduce_cells (ps : list positive) (h : gmap positive Z)
    : gmap positive Z :=
  fold_left (fun h p => alter (fun v => v mod Order) p h) ps h.

(** [flat_vals h ps cts]: the slice [ps] starts with the cells of the
    pairs [cts], [c] before [t], and [h] holds their values. *)
Inductive flat_vals (h : gmap positive Z)
    : list positive -> list (Z * Z) -> Prop :=
  | flat_vals_nil ps : flat_vals h ps []
  | flat_vals_cons cj tj ps c t cts :
      h !! cj = Some c ->
      h !! tj = Some t ->
      flat_vals h ps cts ->
      flat_vals h (cj :: tj :: ps) ((c, t) :: cts).

(** What one iteration of [VerifySignature] computes from the key
    [pk] and the values [(c, t)] of its two cells. *)
Definition verify_step (hashp tau : CurvePoint) (v : verify_vars)
    (x : CurvePoint * (Z * Z)) : verify_vars :=
  let '(pk, (c, t)) := x in
  let c' := c mod Order in
  let t' := t mod Order in
  let gt := Add (ScalarBaseMult t') (ScalarMult pk c') in
  let Hpt := Add (ScalarMult hashp t') (ScalarMult tau c') in
  {| v_hashAcc := Sum256 (v_hashAcc v ++ (Marshal gt ++ Marshal Hpt));
     v_csum := (v_csum v + c') mod Order |}.

Definition verify_fold (hashp tau : CurvePoint) (pubs : list CurvePoint)
    (cts : list (Z * Z)) (v : verify_vars) : verify_vars :=
  fold_left (verify_step hashp tau) (zip pubs cts) v.

(** The verdict of [VerifySignature] on a ring, a message, a [tau] and
    the values of the [c], [t] pairs. *)
Definition verdict (r : Ring) (message : list byte) (tau : CurvePoint)
    (cts : list (Z * Z)) : bool :=
  let hashp := NewCurvePointFromHash (copy32 message) in
  let v := verify_fold hashp tau (PubKeys r) cts
             {| v_hashAcc := Sum256 (take 32 (Marshal hashp) ++ Marshal tau);
                v_csum := 0 |} in
  bool_decide (v_csum v mod Order = SetBytes (v_hashAcc v) mod Order).

(** What the random source decides in one iteration of [Signature]: a
    decoy's [c] and [t], or the signer's own [r]. *)
Inductive draw :=
  | Decoy (c t : Z)
  | Own (r : Z).

(** The draws of the iterations over [rest], the first of which has
    index [j] and starts at position [d] of the tape. *)
Fixpoint sign_trace (signer : Z) (tp : nat -> Z) (j d : nat)
    (rest : list CurvePoint) : list draw :=
  match rest with
  | [] => []
  | _ :: rest' =>
      if decide (Z.of_nat j ≠ signer)
      then Decoy (tp d) (tp (Datatypes.S d))
             :: sign_trace signer tp (Datatypes.S j) (Datatypes.S (Datatypes.S d)) rest'
      else Own (tp d) :: sign_trace signer tp (Datatypes.S j) (Datatypes.S d) rest'
  end.

(** The points [a] and [b] of an iteration. *)
Definition sign_points (hashp hashSP pk : CurvePoint) (e : draw)
    : CurvePoint * CurvePoint :=
  match e with
  | Decoy c t => (ParameterPointAdd pk t c, HashPointAdd hashp hashSP t c)
  | Own r => (ScalarBaseMult r, ScalarMult hashp r)
  end.

Definition sign_chain (hashp hashSP : CurvePoint) (acc : list byte)
    (x : CurvePoint * draw) : list byte :=
  let '(a, b) := sign_points hashp hashSP x.1 x.2 in
  Sum256 (acc ++ (Marshal a ++ Marshal b)).

(** The values of the two cells an iteration appends to [ctlist]. *)
Definition draw_pair (e : draw) : Z * Z :=
  match e with
  | Decoy c t => (c, t)
  | Own _ => (0, 0)
  end.

(** What an iteration adds to [csum]. *)
Definition draw_c (e : draw) : Z :=
  match e with
  | Decoy c _ => c
  | Own _ => 0
  end.

Definition sum_c (tr : list draw) : Z :=
  fold_right (fun e z => draw_c e + z) 0 tr.

(** The values of an iteration's two cells in the finished signature:
    the signer's pair is overwritten with [(c, t)]. *)
Definition final_pair (cS tS : Z) (e : draw) : Z * Z :=
  match e with
  | Decoy c t => (c, t)
  | Own _ => (cS, tS)
  end.

(** The signer's [r], if the trace has the signer's iteration. *)
Fixpoint own_r (tr : list draw) : option Z :=
  match tr with
  | [] => None
  | Own r :: _ => Some r
  | Decoy _ _ :: tr' => own_r tr'
  end.

End RingClosedForms.

(** ** stealth.go *)

Section StealthDefs.
Context {C : Curve} {H : Sha256}.

Record StealthAddress := {
  sa_Public : CurvePoint;
  sa_Nonce : Z;
}.

Record PrivateStealthAddress := {
  psa_Public : CurvePoint;
  psa_Nonce : Z;
  psa_Private : Z;
}.

Record StealthSession := {
  MyPublic : CurvePoint;
  TheirPublic : CurvePoint;
  SharedSecret : list byte;
  TheirAddresses : list StealthAddress;
  MyAddresses : list PrivateStealthAddress;
}.

(** [derivePublicKey]. *)
Definition derivePublicKey (privateKey : Z) : CurvePoint :=
  ScalarBaseMult privateKey.

(** [isValidSecretKey]. *)
Definition isValidSecretKey (secret : Z) : bool :=
  if decide (secret < 1) then false
  else if decide (secret >= Order) then false
  else true.

(** [StealthPubDerive] on a non-nil [mpk]; [None] is the nil it returns. *)
Definition StealthPubDerive (mpk : CurvePoint) (secret : list byte)
    : option CurvePoint :=
  if negb (IsOnCurve mpk) then None
  else
    let X := SetBytes (Sum256 secret) in
    let Y := derivePublicKey X in
    let spk := Add mpk Y in
    Some spk.

(** [StealthPrivDerive] on a non-nil [msk], which it only reads; [None]
    is the nil it returns. *)
Definition StealthPrivDerive (msk : Z) (secret : list byte) : option Z :=
  if negb (isValidSecretKey msk) then None
  else
    let X := SetBytes (Sum256 secret) in
    let Y := msk + X in
    let ssk := Y mod Order in
    if negb (IsOnCurve (derivePublicKey ssk)) then None
    else Some ssk.

(** [deriveSharedSecret]. *)
Definition deriveSharedSecret (myPriv : Z) (theirPub : CurvePoint) : list byte :=
  take 32 (Marshal (ScalarMult theirPub myPriv)).

(** One iteration of the loop of [NewStealthSession].  The result of
    [StealthPrivDerive] goes to [derivePublicKey] unchecked; when it is
    nil, [ScalarBaseMult] reads through a nil [*big.Int] and panics. *)
Definition NewStealthSession_body (mySecret : Z) (theirPublic : CurvePoint)
    (sharedSecret : list byte) (nonceOffset : Z) (i : nat)
    (v : list StealthAddress * list PrivateStealthAddress)
    : res (list StealthAddress * list PrivateStealthAddress) :=
  let '(theirAddresses, myAddresses) := v in
  let nonce := int_wrap (nonceOffset + Z.of_nat i) in
  let secret := sharedSecret ++ Bytes nonce in
  match StealthPubDerive theirPublic secret with
  | None => Err (StealthPubFailed (Z.of_nat i))
  | Some theirStealthPub =>
      let theirSA := {| sa_Public := theirStealthPub; sa_Nonce := nonce |} in
      let theirAddresses := theirAddresses ++ [theirSA] in
      match StealthPrivDerive mySecret secret with
      | None => Panic
      | Some myStealthPriv =>
          let myStealthPub := derivePublicKey myStealthPriv in
          let mySA := {| psa_Public := myStealthPub;
                         psa_Nonce := nonce;
                         psa_Private := myStealthPriv |} in
          Val (theirAddresses, myAddresses ++ [mySA])
      end
  end.

(** [NewStealthSession].  [mySecret] is the value of a non-nil
    [*big.Int], which the function only reads; [theirPublic] is a
    [*CurvePoint], nil when [None]; [nonceOffset] and [addressCount] are
    Go [int]s. *)
Definition NewStealthSession (mySecret : Z) (theirPublic : option CurvePoint)
    (nonceOffset addressCount : Z) : res StealthSession :=
  if negb (isValidSecretKey mySecret) then Err (InvalidSecretKey mySecret)
  else
    match theirPublic with
    | None => Err NullPublicKey
    | Some theirPub =>
        let sharedSecret := deriveSharedSecret mySecret theirPub in
        '(theirAddresses, myAddresses) ←
          for_loop (Z.to_nat addressCount) 0
            (NewStealthSession_body mySecret theirPub sharedSecret nonceOffset)
            ([], []);
        mret {| MyPublic := derivePublicKey mySecret;
                TheirPublic := theirPub;
                SharedSecret := sharedSecret;
                TheirAddresses := theirAddresses;
                MyAddresses := myAddresses |}
    end.

(** What iteration [i] of that loop computes, in closed form: the nonce,
    the secret, and the two addresses it appends when both derivations
    succeed. *)
Definition nonce_at (nonceOffset : Z) (i : nat) : Z :=
  int_wrap (nonceOffset + Z.of_nat i).

Definition secret_at (sharedSecret : list byte) (nonceOffset : Z) (i : nat)
    : list byte :=
  sharedSecret ++ Bytes (nonce_at nonceOffset i).

Definition their_at (theirPublic : CurvePoint) (sharedSecret : list byte)
    (nonceOffset : Z) (i : nat) : StealthAddress :=
  let X := SetBytes (Sum256 (secret_at sharedSecret nonceOffset i)) in
  {| sa_Public := Add theirPublic (derivePublicKey X);
     sa_Nonce := nonce_at nonceOffset i |}.

Definition my_at (mySecret : Z) (sharedSecret : list byte)
    (nonceOffset : Z) (i : nat) : PrivateStealthAddress :=
  let X := SetBytes (Sum256 (secret_at sharedSecret nonceOffset i)) in
  let ssk := (mySecret + X) mod Order in
  {| psa_Public := derivePublicKey ssk;
     psa_Nonce := nonce_at nonceOffset i;
     psa_Private := ssk |}.

(** Whether the on-curve check of [StealthPrivDerive] passes at
    iteration [i]. *)
Definition priv_passes (mySecret : Z) (sharedSecret : list byte)
    (nonceOffset : Z) (i : nat) : bool :=
  IsOnCurve (psa_Public (my_at mySecret sharedSecret nonceOffset i)).

End StealthDefs.

(** ** Key generation, and signing with every key of a ring *)

Section RingKeysDefs.
Context {C : Curve} {H : Sha256}.

(** stealth.go, [generateKeyPair]: a secret from the random source and
    its public key; the [error] it returns is always nil. *)
Definition generateKeyPair : M (CurvePoint * positive) :=
  priv ← RandomN;
  v ← load priv;
  let pub := derivePublicKey v in
  mret (pub, priv).

(** [Ring.Generate].  The method appends to the ring it is called on:
    the result is the ring afterwards. *)
Definition Generate_body (r : Ring) : M Ring :=
  '(public, private) ← generateKeyPair;
  mret {| PubKeys := PubKeys r ++ [public];
          PrivKeys := PrivKeys r ++ [private] |}.

Definition Generate (r : Ring) (n : Z) : M Ring :=
  for_loop (Z.to_nat n) 0 (fun _ => Generate_body) r.

(** The [range] loop of [Ring.Signatures] over the private keys that
    remain, [i] the index of the first of them. *)
Fixpoint Signatures_from (r : Ring) (message : list byte) (i : nat)
    (privs : list positive) (signaturesArr : list RingSignature)
    : M (list RingSignature) :=
  match privs with
  | [] => mret signaturesArr
  | privKey :: rest =>
      pub ← lift (index (PubKeys r) i);
      let signerNumber := PubKeyIndex r pub in
      signature ← Signature r privKey message signerNumber;
      Signatures_from r message (Datatypes.S i) rest (signaturesArr ++ [signature])
  end.

(** [Ring.Signatures]. *)
Definition Signatures (r : Ring) (message : list byte) : M (list RingSignature) :=
  Signatures_from r message 0 (PrivKeys r) [].

(** The ring's [i]-th private key is a cell that holds a valid secret,
    and the [i]-th public key is the public key of that secret. *)
Definition owns_keys (h : gmap positive Z) (r : Ring) : Prop :=
  forall i priv,
    PrivKeys r !! i = Some priv ->
    exists x,
      h !! priv = Some x /\ 1 <= x < Order /\
      PubKeys r !! i = Some (derivePublicKey x).

(** How many values of the random source a trace of [Signature] uses:
    two for a decoy, one for the signer. *)
Definition draws_used (tr : list draw) : nat :=
  fold_right (fun e n => (match e with Decoy _ _ => 2 | Own _ => 1 end + n)%nat)
    0%nat tr.

(** A pair of values that are residues modulo [Order]. *)
Definition in_range (ct : Z * Z) : Prop :=
  0 <= ct.1 < Order /\ 0 <= ct.2 < Order.

(** Two pairs with the same residues. *)
Definition same_residues (ct ct' : Z * Z) : Prop :=
  ct.1 mod Order = ct'.1 mod Order /\ ct.2 mod Order = ct'.2 mod Order.

(** A pair after [VerifySignature] has reduced its two cells. *)
Definition residues (ct : Z * Z) : Z * Z := (ct.1 mod Order, ct.2 mod Order).

(** The signature [sigma] has its cells in the heap [h], their values
    are residues, and the verdict of [VerifySignature] on them is
    [true]. *)
Definition accepted (h : gmap positive Z) (r : Ring) (message : list byte)
    (sigma : RingSignature) : Prop :=
  exists cts,
    length cts = length (PubKeys r) /\
    flat_vals h (Ctlist sigma) cts /\
    Forall in_range cts /\
    verdict r message (Tau sigma) cts = true.

End RingKeysDefs.

(** ** A small instance of the interfaces

    The additive group of the integers modulo 11 with base point 1, whose
    on-curve test rejects the neutral element (as an affine curve equation
    rejects the point at infinity), and a one-byte checksum in place of
    SHA-256.  It makes the definitions above run on concrete inputs. *)

Module Toy.

Definition N : Z := 11.

Definition marshal (P : Z) : list byte :=
  replicate 31 x00 ++ [byte_of_Z P] ++ replicate 31 x00 ++ [byte_of_Z (P * P + 3)].

Definition curve : Curve := {|
  CurvePoint := Z;
  CurvePoint_eq_dec := Z.eq_dec;
  Order := N;
  Order_pos := eq_refl;
  ScalarBaseMult k := k mod N;
  ScalarMult P k := (P * k) mod N;
  Add P Q := (P + Q) mod N;
  IsOnCurve P := negb (P mod N =? 0);
  Marshal := marshal;
  Marshal_length := fun _ => eq_refl;
  NewCurvePointFromHash h := 1 + SetBytes h mod (N - 1);
|}.

Definition checksum (data : list byte) : Z :=
  fold_left (fun a b => (a * 31 + byte_to_Z b + 7) mod 256) data 5.

Definition sha : Sha256 := {|
  Sum256 data := replicate 31 x00 ++ [byte_of_Z (checksum data)];
|}.

(** Draws in [1, N). *)
Definition draws (k : nat) : Z := 1 + (3 * Z.of_nat k + 4) mod (N - 1).

Definition start (h : gmap positive Z) : state :=
  {| heap := h; tape := draws; drawn := 0 |}.

(** A ring of three keys [[5]G], [[3]G], [[7]G], a ring of one key, and
    a 32-byte message. *)
Definition ring3 : @Ring curve :=
  {| PubKeys := [ScalarBaseMult 5; ScalarBaseMult 3; ScalarBaseMult 7];
     PrivKeys := [] |}.

Definition ring1 : @Ring curve :=
  {| PubKeys := [ScalarBaseMult 5]; PrivKeys := [] |}.

Definition msg32 : list byte := replicate 31 x00 ++ [x01].

(** A signature of [msg32] for [ring1] and the secret 5, when its cells
    hold 4 and 7 modulo 11: [tau] is 10. *)
Definition sig1 (ct : list positive) : @RingSignature curve :=
  @Build_RingSignature curve 10 ct.

(** The session of my secret 3 with their public key [[4]G] for the
    nonces 10, 11 and 12. *)
Definition session10 : @StealthSession curve :=
  @Build_StealthSession curve 3 4 msg32
    [@Build_StealthAddress curve 9 10;
     @Build_StealthAddress curve 10 11;
     @Build_StealthAddress curve 0 12]
    [@Build_PrivateStealthAddress curve 8 10 8;
     @Build_PrivateStealthAddress curve 9 11 9;
     @Build_PrivateStealthAddress curve 10 12 10].

(** The same session for the nonces -1, 0 and 1. *)
Definition session_neg : @StealthSession curve :=
  @Build_StealthSession curve 3 4 msg32
    [@Build_StealthAddress curve 0 (-1);
     @Build_StealthAddress curve 10 0;
     @Build_StealthAddress curve 0 1]
    [@Build_PrivateStealthAddress curve 10 (-1) 10;
     @Build_PrivateStealthAddress curve 9 0 9;
     @Build_PrivateStealthAddress curve 10 1 10].

(** The three-key ring with its private keys, and a heap that holds the
    secrets 5, 3 and 7 of its keys. *)
Definition ring3k : @Ring curve :=
  {| PubKeys := [ScalarBaseMult 5; ScalarBaseMult 3; ScalarBaseMult 7];
     PrivKeys := [1; 2; 3]%positive |}.

Definition keys3 : gmap positive Z :=
  {[1%positive := 5; 2%positive := 3; 3%positive := 7]}.

(** A ring with one public key and two private keys, and the empty
    ring. *)
Definition ring12 : @Ring curve :=
  {| PubKeys := [ScalarBaseMult 5]; PrivKeys := [1; 2]%positive |}.

Definition ring0 : @Ring curve := {| PubKeys := []; PrivKeys := [] |}.

End Toy.

(** * Proofs *)

(** ** The ring: hashing and lookup *)

Section RingHashProofs.
Context {C : Curve} {H : Sha256}.

Lemma index_middle {A : Type} (pre rest : list A) (x : A) :
  index (pre ++ x :: rest) (length pre) = Val x.
Proof. unfold index. by rewrite list_lookup_middle. Qed.

(** The loop of [PublicKeysHashed], started anywhere in the ring, folds
    the keys that remain. *)
Lemma PublicKeysHashed_loop (pre rest : list CurvePoint) (out : list byte) :
  for_loop (length rest) (length pre)
    (fun i out =>
       pk ← index (pre ++ rest) i;
       mret (Sum256 (out ++ Marshal pk)))
    out
  = Val (fold_left (fun h pk => Sum256 (h ++ Marshal pk)) rest out).
Proof.
  revert pre out.
  induction rest as [|pk rest IH]; intros pre out; [reflexivity|].
  cbn [length for_loop fold_left].
  rewrite index_middle. cbn.
  specialize (IH (pre ++ [pk]) (Sum256 (out ++ Marshal pk))).
  rewrite <- app_assoc, length_app in IH. cbn in IH.
  by replace (length pre + 1)%nat with (Datatypes.S (length pre)) in IH by lia.
Qed.

(** C9. [PublicKeysHashed] returns (and never panics) the left fold of
    the specification over the ring's public keys in stored order: from
    32 zero bytes, each key [pk] turns [h] into
    [SHA-256(h || marshal(pk))]. *)
Theorem PublicKeysHashed_is_fold (r : Ring) :
  PublicKeysHashed r = Val (public_keys_hashed_spec (PubKeys r)) /\
  public_keys_hashed_spec [] = replicate 32 x00 /\
  (forall pubs pk,
      public_keys_hashed_spec (pubs ++ [pk])
      = Sum256 (public_keys_hashed_spec pubs ++ Marshal pk)).
Proof.
  split; [|split].
  - apply (PublicKeysHashed_loop [] (PubKeys r)).
  - reflexivity.
  - intros pubs pk. unfold public_keys_hashed_spec.
    by rewrite fold_left_app.
Qed.

Lemma PubKeyIndex_from_spec (pubs : list CurvePoint) (pk : CurvePoint) (k : Z) :
  0 <= k ->
  let i := PubKeyIndex_from k pubs pk in
  (i = -1 <-> pk ∉ pubs) /\
  (i <> -1 ->
     k <= i /\
     pubs !! Z.to_nat (i - k) = Some pk /\
     forall j : nat, (j < Z.to_nat (i - k))%nat -> pubs !! j <> Some pk).
Proof.
  revert k. induction pubs as [|pub rest IH]; intros k Hk; cbn.
  - split; [|done]. split; [|done]. intros _. apply not_elem_of_nil.
  - destruct (decide (pub = pk)) as [->|Hne].
    + split.
      * split; [lia|]. intros Hn. exfalso. apply Hn. by left.
      * intros _. replace (k - k) with 0 by lia. repeat split; [lia|].
        intros j Hj. cbn in Hj. lia.
    + destruct (IH (k + 1)) as [IH1 IH2]; [lia|]. split.
      * rewrite IH1, not_elem_of_cons. split; [intros Hn; split; [congruence|done]|by intros [_ Hn]].
      * intros Hi. destruct (IH2 Hi) as (Hle & Hat & Hmin).
        set (i := PubKeyIndex_from (k + 1) rest pk) in *.
        replace (Z.to_nat (i - k)) with (Datatypes.S (Z.to_nat (i - (k + 1)))) by lia.
        repeat split; [lia|exact Hat|].
        intros [|j] Hj; cbn; [congruence|]. apply Hmin. lia.
Qed.

(** C10. [PubKeyIndex] returns -1 exactly when the point does not occur
    among the ring's public keys, and otherwise the smallest index that
    holds a key equal to it. *)
Theorem PubKeyIndex_first (r : Ring) (pk : CurvePoint) :
  let i := PubKeyIndex r pk in
  (i = -1 <-> pk ∉ PubKeys r) /\
  (i <> -1 ->
     0 <= i < Z.of_nat (length (PubKeys r)) /\
     PubKeys r !! Z.to_nat i = Some pk /\
     forall j : nat, (j < Z.to_nat i)%nat -> PubKeys r !! j <> Some pk).
Proof.
  intros i. destruct (PubKeyIndex_from_spec (PubKeys r) pk 0) as [H1 H2]; [lia|].
  fold (PubKeyIndex r pk) in H1, H2. fold i in H1, H2.
  split; [exact H1|]. intros Hi. destruct (H2 Hi) as (Hle & Hat & Hmin).
  replace (i - 0) with i in * by lia.
  repeat split; [lia| |exact Hat|exact Hmin].
  apply lookup_lt_Some in Hat. lia.
Qed.

End RingHashProofs.

(** ** Stealth derivation and sessions *)

Section StealthProofs.
Context {C : Curve} {H : Sha256}.

Lemma isValidSecretKey_spec (secret : Z) :
  isValidSecretKey secret = true <-> 1 <= secret < Order.
Proof.
  unfold isValidSecretKey. repeat case_decide; split; intros; (done || lia).
Qed.

Lemma SetBytes_nonneg (data : list byte) : 0 <= SetBytes data.
Proof.
  unfold SetBytes.
  assert (forall z, 0 <= z ->
            0 <= fold_left (fun z b => z * 256 + byte_to_Z b) data z) as Hgen.
  { induction data as [|b data IH]; intros z Hz; cbn; [done|].
    apply IH. pose proof (N2Z.is_nonneg (Byte.to_N b)).
    unfold byte_to_Z. lia. }
  by apply Hgen.
Qed.

Lemma StealthPubDerive_eq (mpk : CurvePoint) (secret : list byte) :
  StealthPubDerive mpk secret =
    if IsOnCurve mpk
    then Some (Add mpk (derivePublicKey (SetBytes (Sum256 secret))))
    else None.
Proof. unfold StealthPubDerive. by destruct (IsOnCurve mpk). Qed.

Lemma StealthPrivDerive_eq (msk : Z) (secret : list byte) :
  isValidSecretKey msk = true ->
  StealthPrivDerive msk secret =
    let ssk := (msk + SetBytes (Sum256 secret)) mod Order in
    if IsOnCurve (derivePublicKey ssk) then Some ssk else None.
Proof.
  intros Hv. unfold StealthPrivDerive. rewrite Hv. cbn.
  by destruct (IsOnCurve _).
Qed.

(** The algebra behind the derivation: the public key of
    [(msk + X) mod N] is [[msk]G + [X]G]. *)
Lemma derivePublicKey_sum `{!CurveLaws C} (msk X : Z) :
  0 <= msk -> 0 <= X ->
  derivePublicKey ((msk + X) mod Order)
  = Add (derivePublicKey msk) (derivePublicKey X).
Proof.
  intros Hm HX. unfold derivePublicKey.
  rewrite ScalarBaseMult_mod by lia. by rewrite ScalarBaseMult_add.
Qed.

(** C2, as amended.  For a valid secret [msk] and any bytes [secret]
    whose stealth secret [(msk + SHA256(secret)) mod N] is not zero,
    [StealthPrivDerive] returns that scalar, [StealthPubDerive] on
    [[msk]G] returns a point, and the point is the public key of the
    scalar.  The equation [[(msk + X) mod N]G = [msk]G + [X]G] itself
    holds for every valid [msk] and every [secret]. *)
Theorem stealth_derive_agree `{!CurveLaws C} (msk : Z) (secret : list byte) :
  1 <= msk < Order ->
  let X := SetBytes (Sum256 secret) in
  derivePublicKey ((msk + X) mod Order)
    = Add (derivePublicKey msk) (derivePublicKey X) /\
  ((msk + X) mod Order <> 0 ->
   StealthPrivDerive msk secret = Some ((msk + X) mod Order) /\
   derivePublicKey <$> StealthPrivDerive msk secret
     = StealthPubDerive (derivePublicKey msk) secret).
Proof.
  intros Hm X.
  pose proof (SetBytes_nonneg (Sum256 secret)) as HX. fold X in HX.
  assert (derivePublicKey ((msk + X) mod Order)
          = Add (derivePublicKey msk) (derivePublicKey X)) as Hsum
    by (apply derivePublicKey_sum; lia).
  split; [exact Hsum|]. intros Hnz.
  pose proof Order_pos as HN.
  pose proof (Z.mod_pos_bound (msk + X) Order HN) as Hb.
  rewrite StealthPrivDerive_eq by (by apply isValidSecretKey_spec).
  rewrite StealthPubDerive_eq. cbn zeta. fold X.
  unfold derivePublicKey at 1 3 4.
  rewrite !IsOnCurve_base by lia.
  split; [done|]. cbn. by rewrite Hsum.
Qed.

(** Where the guard of [StealthPrivDerive] fires.  On a curve whose
    on-curve test rejects the neutral element, every [secret] whose hash
    is not a multiple of [N] has a valid [msk], namely
    [N - SHA256(secret) mod N], for which [StealthPrivDerive] returns nil
    although [StealthPubDerive] returns a point. *)
Lemma StealthPrivDerive_nil `{!CurveLaws C} (secret : list byte) :
  IsOnCurve (ScalarBaseMult 0) = false ->
  let X := SetBytes (Sum256 secret) in
  X mod Order <> 0 ->
  let msk := Order - X mod Order in
  1 <= msk < Order /\
  StealthPrivDerive msk secret = None /\
  is_Some (StealthPubDerive (derivePublicKey msk) secret).
Proof.
  intros Hzero X HX msk.
  pose proof Order_pos as HN.
  pose proof (Z.mod_pos_bound X Order HN) as Hb.
  assert (1 <= msk < Order) as Hm by (unfold msk; lia).
  split; [exact Hm|]. split.
  - rewrite StealthPrivDerive_eq by (by apply isValidSecretKey_spec).
    cbn zeta. fold X.
    replace ((msk + X) mod Order) with 0.
    + unfold derivePublicKey. by rewrite Hzero.
    + unfold msk. rewrite (Z.mod_eq X Order) by lia.
      replace (Order - (X - Order * (X / Order)) + X)
        with (0 + (1 + X / Order) * Order) by lia.
      by rewrite Z_mod_plus_full.
  - rewrite StealthPubDerive_eq. unfold derivePublicKey.
    rewrite IsOnCurve_base by done. by eexists.
Qed.

(** *** The loop of [NewStealthSession] *)

Section SessionLoop.
Variables (mySecret : Z) (theirPub : CurvePoint) (nonceOffset : Z).
Hypothesis mySecret_valid : isValidSecretKey mySecret = true.

Let shared := deriveSharedSecret mySecret theirPub.
Let body := NewStealthSession_body mySecret theirPub shared nonceOffset.

Local Abbreviation priv_passes := (priv_passes mySecret shared nonceOffset).

Lemma NewStealthSession_body_eq (i : nat) (t : list StealthAddress)
    (m : list PrivateStealthAddress) :
  body i (t, m) =
    if IsOnCurve theirPub then
      if priv_passes i
      then Val (t ++ [their_at theirPub shared nonceOffset i],
                m ++ [my_at mySecret shared nonceOffset i])
      else Panic
    else Err (StealthPubFailed (Z.of_nat i)).
Proof.
  unfold body, NewStealthSession_body, priv_passes.
  fold (nonce_at nonceOffset i). fold (secret_at shared nonceOffset i).
  rewrite StealthPubDerive_eq, (StealthPrivDerive_eq _ _ mySecret_valid).
  cbn zeta. unfold my_at, their_at. cbn [psa_Public].
  destruct (IsOnCurve theirPub); [|done].
  by destruct (IsOnCurve (derivePublicKey _)).
Qed.

(** A returning loop has appended exactly the closed forms. *)
Lemma NewStealthSession_loop_returns (n j : nat) t m t' m' :
  for_loop n j body (t, m) = Val (t', m') ->
  t' = t ++ map (their_at theirPub shared nonceOffset) (seq j n) /\
  m' = m ++ map (my_at mySecret shared nonceOffset) (seq j n) /\
  (forall i, (j <= i < j + n)%nat ->
             IsOnCurve theirPub = true /\ priv_passes i = true).
Proof.
  revert j t m. induction n as [|n IH]; intros j t m; cbn [for_loop seq map].
  - intros [= <- <-]. rewrite !app_nil_r. repeat split; lia.
  - rewrite NewStealthSession_body_eq.
    destruct (IsOnCurve theirPub) eqn:Hpub; [|done].
    destruct (priv_passes j) eqn:Hpriv; [|done].
    cbn. intros Hrest. apply IH in Hrest as (-> & -> & Hall).
    rewrite <- !app_assoc. repeat split; try done.
    all: destruct (decide (i = j)) as [->|]; [done|]; apply Hall; lia.
Qed.

(** The loop returns when every check passes. *)
Lemma NewStealthSession_loop_passes (n j : nat) t m :
  IsOnCurve theirPub = true ->
  (forall i, (j <= i < j + n)%nat -> priv_passes i = true) ->
  for_loop n j body (t, m)
  = Val (t ++ map (their_at theirPub shared nonceOffset) (seq j n),
         m ++ map (my_at mySecret shared nonceOffset) (seq j n)).
Proof.
  intros Hpub. revert j t m.
  induction n as [|n IH]; intros j t m Hall; cbn [for_loop seq map].
  - by rewrite !app_nil_r.
  - rewrite NewStealthSession_body_eq, Hpub, Hall by lia. cbn.
    rewrite IH by (intros; apply Hall; lia).
    by rewrite <- !app_assoc.
Qed.

(** An off-curve [theirPublic] stops the loop in its first iteration
    with the error that names the index. *)
Lemma NewStealthSession_loop_pub_fails (n j : nat) t m :
  IsOnCurve theirPub = false ->
  for_loop (Datatypes.S n) j body (t, m) = Err (StealthPubFailed (Z.of_nat j)).
Proof. intros Hpub. cbn [for_loop]. by rewrite NewStealthSession_body_eq, Hpub. Qed.

(** The first iteration in which [StealthPrivDerive] returns nil makes
    the loop panic: no error is returned for it. *)
Lemma NewStealthSession_loop_priv_fails (n j i : nat) t m :
  IsOnCurve theirPub = true ->
  (j <= i < j + n)%nat ->
  (forall k, (j <= k < i)%nat -> priv_passes k = true) ->
  priv_passes i = false ->
  for_loop n j body (t, m) = Panic.
Proof.
  intros Hpub. revert j t m.
  induction n as [|n IH]; intros j t m Hi Hbefore Hfail; [lia|].
  cbn [for_loop]. rewrite NewStealthSession_body_eq, Hpub.
  destruct (decide (i = j)) as [->|Hne].
  - by rewrite Hfail.
  - rewrite Hbefore by lia. cbn.
    apply IH; [lia| |done]. intros k Hk. apply Hbefore. lia.
Qed.

End SessionLoop.

Lemma int_wrap_small (z : Z) : MinInt <= z <= MaxInt -> int_wrap z = z.
Proof.
  unfold int_wrap, MinInt, MaxInt. intros Hz.
  rewrite Z.mod_small; lia.
Qed.

(** A call with a valid secret, an on-curve public key and passing
    checks returns the session in closed form. *)
Lemma NewStealthSession_returns (mySecret : Z) (theirPub : CurvePoint)
    (nonceOffset addressCount : Z) :
  isValidSecretKey mySecret = true ->
  IsOnCurve theirPub = true ->
  let shared := deriveSharedSecret mySecret theirPub in
  (forall i, (i < Z.to_nat addressCount)%nat ->
             priv_passes mySecret shared nonceOffset i = true) ->
  NewStealthSession mySecret (Some theirPub) nonceOffset addressCount
  = Val {| MyPublic := derivePublicKey mySecret;
           TheirPublic := theirPub;
           SharedSecret := shared;
           TheirAddresses :=
             map (their_at theirPub shared nonceOffset)
                 (seq 0 (Z.to_nat addressCount));
           MyAddresses :=
             map (my_at mySecret shared nonceOffset)
                 (seq 0 (Z.to_nat addressCount)) |}.
Proof.
  intros Hv Hpub shared Hall. unfold NewStealthSession. rewrite Hv. cbn.
  rewrite (NewStealthSession_loop_passes _ _ _ Hv) by (try done; intros; apply Hall; lia).
  reflexivity.
Qed.

(** The three errors the code does return. *)
Lemma NewStealthSession_errors (mySecret : Z) (theirPublic : option CurvePoint)
    (nonceOffset addressCount : Z) :
  (isValidSecretKey mySecret = false ->
   NewStealthSession mySecret theirPublic nonceOffset addressCount
   = Err (InvalidSecretKey mySecret)) /\
  (isValidSecretKey mySecret = true ->
   NewStealthSession mySecret None nonceOffset addressCount
   = Err NullPublicKey) /\
  (forall theirPub,
      isValidSecretKey mySecret = true ->
      IsOnCurve theirPub = false ->
      0 < addressCount ->
      NewStealthSession mySecret (Some theirPub) nonceOffset addressCount
      = Err (StealthPubFailed 0)).
Proof.
  unfold NewStealthSession. repeat split.
  - by intros ->.
  - by intros ->.
  - intros theirPub Hv Hpub Hc. rewrite Hv. cbn.
    destruct (Z.to_nat addressCount) as [|n] eqn:Hn; [lia|].
    by rewrite (NewStealthSession_loop_pub_fails _ _ _ Hv).
Qed.

(** A nil result of [StealthPrivDerive] is not turned into an error:
    the call panics at the first index where it occurs. *)
Lemma NewStealthSession_priv_nil (mySecret : Z) (theirPub : CurvePoint)
    (nonceOffset addressCount : Z) (i : nat) :
  isValidSecretKey mySecret = true ->
  IsOnCurve theirPub = true ->
  (i < Z.to_nat addressCount)%nat ->
  let shared := deriveSharedSecret mySecret theirPub in
  (forall k, (k < i)%nat -> priv_passes mySecret shared nonceOffset k = true) ->
  StealthPrivDerive mySecret (secret_at shared nonceOffset i) = None ->
  NewStealthSession mySecret (Some theirPub) nonceOffset addressCount = Panic.
Proof.
  intros Hv Hpub Hi shared Hbefore Hnil. unfold NewStealthSession.
  rewrite Hv. cbn.
  rewrite (NewStealthSession_loop_priv_fails _ _ _ Hv _ 0 i); try done; [lia| |].
  - intros k Hk. apply Hbefore. lia.
  - rewrite (StealthPrivDerive_eq _ _ Hv) in Hnil. cbn zeta in Hnil.
    unfold priv_passes, my_at. cbn [psa_Public].
    by destruct (IsOnCurve (derivePublicKey _)).
Qed.

(** C7, as amended.  For a valid secret, a non-nil public key and
    non-negative [nonce_offset] and [count]: every session the call
    returns has [count] addresses in each list; at each index [i] both
    nonces are [nonce_offset + i] in Go [int] arithmetic (two's
    complement on 64 bits), which is the integer [nonce_offset + i]
    whenever that is at most [MaxInt], and the public key of my address
    is [[private]G].  And with [count = 0] the call does return, whatever
    the public key: a session with empty lists. *)
Theorem NewStealthSession_invariant (mySecret : Z) (theirPub : CurvePoint)
    (nonceOffset addressCount : Z) :
  1 <= mySecret < Order ->
  0 <= nonceOffset <= MaxInt ->
  0 <= addressCount <= MaxInt ->
  (forall sess : StealthSession,
     NewStealthSession mySecret (Some theirPub) nonceOffset addressCount
       = Val sess ->
     length (TheirAddresses sess) = Z.to_nat addressCount /\
     length (MyAddresses sess) = Z.to_nat addressCount /\
     forall i : nat, (i < Z.to_nat addressCount)%nat ->
       exists sa psa,
         TheirAddresses sess !! i = Some sa /\
         MyAddresses sess !! i = Some psa /\
         sa_Nonce sa = int_wrap (nonceOffset + Z.of_nat i) /\
         psa_Nonce psa = int_wrap (nonceOffset + Z.of_nat i) /\
         (nonceOffset + Z.of_nat i <= MaxInt ->
          sa_Nonce sa = nonceOffset + Z.of_nat i /\
          psa_Nonce psa = nonceOffset + Z.of_nat i) /\
         psa_Public psa = derivePublicKey (psa_Private psa)) /\
  NewStealthSession mySecret (Some theirPub) nonceOffset 0
    = Val {| MyPublic := derivePublicKey mySecret;
             TheirPublic := theirPub;
             SharedSecret := deriveSharedSecret mySecret theirPub;
             TheirAddresses := [];
             MyAddresses := [] |}.
Proof.
  intros Hsec Hoff Hcount.
  apply isValidSecretKey_spec in Hsec as Hv. split.
  - intros sess Hret.
    unfold NewStealthSession in Hret. rewrite Hv in Hret. cbn in Hret.
    destruct (for_loop _ _ _ _) as [[t m]| |] eqn:Hloop; try done.
    injection Hret as <-. cbn [TheirAddresses MyAddresses].
    apply (NewStealthSession_loop_returns _ _ _ Hv) in Hloop as (-> & -> & _). cbn.
    rewrite !length_map, !length_seq. repeat split.
    intros i Hi.
    set (shared := deriveSharedSecret mySecret theirPub).
    exists (their_at theirPub shared nonceOffset i),
           (my_at mySecret shared nonceOffset i).
    rewrite !list_lookup_fmap, !lookup_seq_lt by done. cbn.
    repeat split; try done.
    all: unfold nonce_at; apply int_wrap_small;
      unfold MinInt, MaxInt in *; lia.
  - unfold NewStealthSession. by rewrite Hv.
Qed.

End StealthProofs.

(** ** Ring signatures *)

(** *** The monad of heap and random source *)

Lemma bind_M_val {A B : Type} (m : M A) (f : A -> M B) s a s' :
  m s = Val (a, s') -> mbind f m s = f a s'.
Proof. intros Hm. unfold mbind, M_bind. by rewrite Hm. Qed.

Lemma bind_M_panic {A B : Type} (m : M A) (f : A -> M B) s :
  m s = Panic -> mbind f m s = Panic.
Proof. intros Hm. unfold mbind, M_bind. by rewrite Hm. Qed.

Lemma lift_index_val {A : Type} (xs : list A) (i : nat) (x : A) s :
  xs !! i = Some x -> lift (index xs i) s = Val (x, s).
Proof. intros Hx. unfold index. by rewrite Hx. Qed.

Lemma for_loop_M_step {S : Type} (n j : nat) (body : nat -> S -> M S) v s v1 s1 :
  body j v s = Val (v1, s1) ->
  for_loop (Datatypes.S n) j body v s = for_loop n (Datatypes.S j) body v1 s1.
Proof. intros Hb. cbn [for_loop]. by apply bind_M_val. Qed.

Lemma load_val (p : positive) (v : Z) s :
  heap s !! p = Some v -> load p s = Val (v, s).
Proof. intros Hp. unfold load. by rewrite Hp. Qed.

Lemma alter_as_insert (f : Z -> Z) (p : positive) (v : Z) (h : gmap positive Z) :
  h !! p = Some v -> <[p := f v]> h = alter f p h.
Proof.
  intros Hp. apply map_eq. intros q.
  rewrite lookup_insert, lookup_alter.
  case_decide; [subst; by rewrite Hp|done].
Qed.

(** Runs the first command of a sequence, given its result by [tac]. *)
Tactic Notation "mrun" tactic3(tac) := erewrite bind_M_val; [|tac]; cbn beta.

Section HeapProofs.
Context {C : Curve} {H : Sha256}.

Lemma Order_nonzero : Order <> 0.
Proof. pose proof Order_pos. lia. Qed.

Lemma Mod_in_place_val (x : positive) (v : Z) s :
  heap s !! x = Some v ->
  Mod_in_place x s
  = Val (tt, set_heap (alter (fun v => v mod Order) x (heap s)) s).
Proof.
  intros Hx. unfold Mod_in_place.
  rewrite (bind_M_val _ _ _ _ _ (load_val _ _ _ Hx)).
  unfold store. rewrite Hx.
  by rewrite (alter_as_insert (fun v => v mod Order) _ _ _ Hx).
Qed.

Lemma Mod_in_place_nil (x : positive) s :
  heap s !! x = None -> Mod_in_place x s = Panic.
Proof.
  intros Hx. unfold Mod_in_place, mbind, M_bind, load. by rewrite Hx.
Qed.

Lemma reduce_cells_app (ps qs : list positive) (h : gmap positive Z) :
  reduce_cells (ps ++ qs) h = reduce_cells qs (reduce_cells ps h).
Proof. unfold reduce_cells. apply fold_left_app. Qed.

(** A cell among [ps] ends up holding its residue, every other cell
    keeps its value. *)
Lemma lookup_reduce_cells (ps : list positive) (h : gmap positive Z) (p : positive) :
  reduce_cells ps h !! p =
    if decide (p ∈ ps) then (fun v => v mod Order) <$> h !! p else h !! p.
Proof.
  revert h. induction ps as [|q ps IH]; intros h.
  - cbn. case_decide as Hin; [|done]. by apply elem_of_nil in Hin.
  - change (reduce_cells (q :: ps) h)
      with (reduce_cells ps (alter (fun v => v mod Order) q h)).
    rewrite IH, lookup_alter.
    destruct (decide (q = p)) as [->|Hne].
    + rewrite (decide_True (P := p ∈ p :: ps)) by (apply elem_of_cons; by left).
      case_decide; [|done].
      destruct (h !! p) as [v|]; [|done]. cbn.
      by rewrite Z.mod_mod by apply Order_nonzero.
    + destruct (decide (p ∈ ps)) as [Hin|Hnin].
      * by rewrite (decide_True (P := p ∈ q :: ps)) by (apply elem_of_cons; by right).
      * rewrite (decide_False (P := p ∈ q :: ps)); [done|].
        rewrite elem_of_cons. intros [->|?]; done.
Qed.

Lemma reduce_cells_current (ps : list positive) (h : gmap positive Z)
    (p : positive) (v : Z) :
  h !! p = Some v ->
  exists v', reduce_cells ps h !! p = Some v' /\ v' mod Order = v mod Order.
Proof.
  intros Hp. rewrite lookup_reduce_cells, Hp.
  case_decide; eexists; split; try done. cbn.
  by rewrite Z.mod_mod by apply Order_nonzero.
Qed.

Lemma verify_step_residue hashp tau v pk c t c' t' :
  c' mod Order = c mod Order ->
  t' mod Order = t mod Order ->
  verify_step hashp tau v (pk, (c', t')) = verify_step hashp tau v (pk, (c, t)).
Proof. intros Hc Ht. unfold verify_step. by rewrite Hc, Ht. Qed.

(** One iteration of [VerifySignature] on cells that exist. *)
Lemma VerifySignature_body_val r hashp tau ctl j v s cj tj pk c t :
  ctl !! (2 * j)%nat = Some cj ->
  ctl !! (2 * j + 1)%nat = Some tj ->
  PubKeys r !! j = Some pk ->
  heap s !! cj = Some c ->
  heap s !! tj = Some t ->
  VerifySignature_body r hashp tau ctl j v s
  = Val (verify_step hashp tau v (pk, (c, t)),
         set_heap (reduce_cells [cj; tj] (heap s)) s).
Proof.
  intros Hcj Htj Hpk Hc Ht. unfold VerifySignature_body.
  set (f := fun v => v mod Order).
  set (s1 := set_heap (alter f cj (heap s)) s).
  assert (heap s1 !! tj = Some (if decide (cj = tj) then f t else t)) as Ht1.
  { cbn. rewrite lookup_alter.
    destruct (decide (cj = tj)) as [<-|]; [|done].
    rewrite Hc in Ht |- *. by injection Ht as ->. }
  set (s2 := set_heap (alter f tj (heap s1)) s1).
  assert (heap s2 = reduce_cells [cj; tj] (heap s)) as Hh2 by done.
  assert (heap s2 !! cj = Some (f c) /\ heap s2 !! tj = Some (f t)) as [Hc2 Ht2].
  { rewrite Hh2, !lookup_reduce_cells, Hc, Ht.
    rewrite !decide_True; [done|set_solver|set_solver]. }
  mrun (by apply lift_index_val).
  mrun (by apply lift_index_val).
  mrun (by eapply Mod_in_place_val).
  mrun (by eapply Mod_in_place_val).
  mrun (by apply lift_index_val).
  mrun (by apply load_val).
  mrun (by apply load_val).
  reflexivity.
Qed.

Lemma take_two_more {A : Type} (n : nat) (x y : A) (l : list A) :
  take (2 * Datatypes.S n) (x :: y :: l) = x :: y :: take (2 * n) l.
Proof. by replace (2 * Datatypes.S n)%nat with (Datatypes.S (Datatypes.S (2 * n))) by lia. Qed.

(** The loop of [VerifySignature], started at any index: it folds
    [verify_step] over the remaining keys and pairs and reduces the
    cells it reads. *)
Lemma VerifySignature_loop r hashp tau h0 (rest : list CurvePoint) :
  forall pre cpre crest cts v s,
    PubKeys r = pre ++ rest ->
    length cpre = (2 * length pre)%nat ->
    length cts = length rest ->
    flat_vals h0 crest cts ->
    heap s = reduce_cells cpre h0 ->
    for_loop (length rest) (length pre)
      (VerifySignature_body r hashp tau (cpre ++ crest)) v s
    = Val (fold_left (verify_step hashp tau) (zip rest cts) v,
           set_heap (reduce_cells (take (2 * length rest) crest) (heap s)) s).
Proof.
  induction rest as [|pk rest IH];
    intros pre cpre crest cts v s Hr Hcpre Hlen Hflat Hheap.
  - destruct cts; [|done]. cbn. by destruct s.
  - destruct cts as [|[c t] cts]; [done|].
    inversion Hflat as [|cj tj crest' c0 t0 cts0 Hc Ht Hflat']; subst.
    destruct (reduce_cells_current cpre h0 cj c Hc) as (c' & Hc' & Hcres).
    destruct (reduce_cells_current cpre h0 tj t Ht) as (t' & Ht' & Htres).
    rewrite <- Hheap in Hc', Ht'.
    cbn [length].
    erewrite for_loop_M_step; cycle 1.
    { apply (VerifySignature_body_val _ _ _ _ _ _ _ cj tj pk c' t'); try done.
      - rewrite lookup_app_r by lia.
        by replace (2 * length pre - length cpre)%nat with 0%nat by lia.
      - rewrite lookup_app_r by lia.
        by replace (2 * length pre + 1 - length cpre)%nat with 1%nat by lia.
      - rewrite Hr. apply list_lookup_middle. done. }
    rewrite (verify_step_residue _ _ _ _ c t c' t') by done.
    specialize (IH (pre ++ [pk]) (cpre ++ [cj; tj]) crest' cts
                  (verify_step hashp tau v (pk, (c, t)))
                  (set_heap (reduce_cells [cj; tj] (heap s)) s)).
    rewrite <- !app_assoc in IH. cbn [app] in IH.
    rewrite !length_app in IH. cbn [length] in IH.
    replace (length pre + 1)%nat with (Datatypes.S (length pre)) in IH by lia.
    rewrite IH; [|done|lia|by injection Hlen|done|].
    + rewrite take_two_more. reflexivity.
    + cbn [heap set_heap]. by rewrite Hheap, reduce_cells_app.
Qed.

(** [VerifySignature] on a signature whose first [2n] cells exist:
    it returns the verdict on their values and reduces them in place. *)
Lemma VerifySignature_val r message sigma s cts :
  length cts = length (PubKeys r) ->
  flat_vals (heap s) (Ctlist sigma) cts ->
  VerifySignature r message sigma s
  = Val (verdict r message (Tau sigma) cts,
         set_heap
           (reduce_cells (take (2 * length (PubKeys r)) (Ctlist sigma)) (heap s))
           s).
Proof.
  intros Hlen Hflat. unfold VerifySignature.
  mrun (by eapply (VerifySignature_loop r _ _ (heap s) (PubKeys r) [] []
                     (Ctlist sigma) cts)).
  reflexivity.
Qed.

(** With fewer than [2n] entries the loop runs out of the slice: the
    index expression panics. *)
Lemma VerifySignature_loop_short r hashp tau h0 (rest : list CurvePoint) :
  forall pre cpre crest v s,
    PubKeys r = pre ++ rest ->
    length cpre = (2 * length pre)%nat ->
    (length crest < 2 * length rest)%nat ->
    Forall (fun p => is_Some (h0 !! p)) crest ->
    heap s = reduce_cells cpre h0 ->
    for_loop (length rest) (length pre)
      (VerifySignature_body r hashp tau (cpre ++ crest)) v s
    = Panic.
Proof.
  induction rest as [|pk rest IH];
    intros pre cpre crest v s Hr Hcpre Hlen Hall Hheap; [cbn in Hlen; lia|].
  cbn [length for_loop].
  destruct crest as [|cj [|tj crest]].
  - apply bind_M_panic. unfold VerifySignature_body.
    apply bind_M_panic. unfold index.
    by rewrite lookup_ge_None_2 by (rewrite length_app; cbn; lia).
  - apply bind_M_panic. unfold VerifySignature_body.
    mrun (apply lift_index_val; rewrite lookup_app_r by lia;
          by replace (2 * length pre - length cpre)%nat with 0%nat by lia).
    apply bind_M_panic. unfold index.
    by rewrite lookup_ge_None_2 by (rewrite length_app; cbn; lia).
  - apply Forall_cons in Hall as [[c Hc] Hall].
    apply Forall_cons in Hall as [[t Ht] Hall].
    destruct (reduce_cells_current cpre h0 cj c Hc) as (c' & Hc' & _).
    destruct (reduce_cells_current cpre h0 tj t Ht) as (t' & Ht' & _).
    rewrite <- Hheap in Hc', Ht'.
    change (for_loop (Datatypes.S (length rest)) (length pre)
              (VerifySignature_body r hashp tau (cpre ++ cj :: tj :: crest)) v s
            = Panic).
    erewrite for_loop_M_step; cycle 1.
    { apply (VerifySignature_body_val _ _ _ _ _ _ _ cj tj pk c' t'); try done.
      - rewrite lookup_app_r by lia.
        by replace (2 * length pre - length cpre)%nat with 0%nat by lia.
      - rewrite lookup_app_r by lia.
        by replace (2 * length pre + 1 - length cpre)%nat with 1%nat by lia.
      - rewrite Hr. apply list_lookup_middle. done. }
    specialize (IH (pre ++ [pk]) (cpre ++ [cj; tj]) crest
                  (verify_step hashp tau v (pk, (c', t')))
                  (set_heap (reduce_cells [cj; tj] (heap s)) s)).
    rewrite <- !app_assoc in IH. cbn [app] in IH.
    rewrite !length_app in IH. cbn [length] in IH.
    replace (length pre + 1)%nat with (Datatypes.S (length pre)) in IH by lia.
    apply IH; [done|lia|cbn in Hlen; lia|done|].
    cbn [heap set_heap]. by rewrite Hheap, reduce_cells_app.
Qed.

(** [VerifySignature] on a signature with fewer than [2n] entries, none
    of them nil: a panic, not a rejection. *)
Lemma VerifySignature_short r message sigma s :
  (length (Ctlist sigma) < 2 * length (PubKeys r))%nat ->
  Forall (fun p => is_Some (heap s !! p)) (Ctlist sigma) ->
  VerifySignature r message sigma s = Panic.
Proof.
  intros Hlen Hall. unfold VerifySignature. apply bind_M_panic.
  by apply (VerifySignature_loop_short r _ _ (heap s) (PubKeys r) [] []
              (Ctlist sigma)).
Qed.

Lemma flat_vals_exists (h : gmap positive Z) (n : nat) :
  forall ps,
    (2 * n <= length ps)%nat ->
    Forall (fun p => is_Some (h !! p)) (take (2 * n) ps) ->
    exists cts, length cts = n /\ flat_vals h ps cts.
Proof.
  induction n as [|n IH]; intros ps Hlen Hall.
  - exists []. split; [done|constructor].
  - destruct ps as [|cj [|tj ps]]; [cbn in Hlen; lia..|].
    rewrite take_two_more in Hall.
    apply Forall_cons in Hall as [[c Hc] Hall].
    apply Forall_cons in Hall as [[t Ht] Hall].
    destruct (IH ps) as (cts & Hl & Hf); [cbn in Hlen; lia|done|].
    exists ((c, t) :: cts). split; [cbn; lia|by constructor].
Qed.

Lemma flat_vals_take (h : gmap positive Z) ps cts :
  flat_vals h ps cts -> flat_vals h (take (2 * length cts) ps) cts.
Proof.
  induction 1 as [|cj tj ps c t cts Hc Ht _ IH]; [constructor|].
  cbn [length]. rewrite take_two_more. by constructor.
Qed.

(** *** [Signature] *)

Lemma fresh_cell (h : gmap positive Z) : h !! fresh (dom h) = None.
Proof. apply not_elem_of_dom, is_fresh. Qed.

Lemma alloc_val (v : Z) s :
  exists p s',
    alloc v s = Val (p, s') /\
    heap s !! p = None /\
    heap s' = <[p := v]> (heap s) /\
    tape s' = tape s /\ drawn s' = drawn s.
Proof.
  eexists _, _. split; [reflexivity|]. cbn. split; [apply fresh_cell|done].
Qed.

Lemma RandomN_val s :
  exists p s',
    RandomN s = Val (p, s') /\
    heap s !! p = None /\
    heap s' = <[p := tape s (drawn s)]> (heap s) /\
    tape s' = tape s /\ drawn s' = Datatypes.S (drawn s).
Proof.
  eexists _, _. split; [reflexivity|]. cbn. split; [apply fresh_cell|done].
Qed.

(** An iteration for a decoy: two draws in two new cells. *)
Lemma Signature_body_decoy r hashp hashSP signer j v s pk :
  Z.of_nat j <> signer ->
  PubKeys r !! j = Some pk ->
  let e := Decoy (tape s (drawn s)) (tape s (Datatypes.S (drawn s))) in
  exists cj tj s',
    Signature_body r hashp hashSP signer j v s
    = Val ({| ctlist := ctlist v ++ [cj; tj];
              ri := ri v;
              csum := csum v + draw_c e;
              hashAcc := sign_chain hashp hashSP (hashAcc v) (pk, e) |}, s') /\
    heap s ⊆ heap s' /\
    heap s' !! cj = Some (tape s (drawn s)) /\
    heap s' !! tj = Some (tape s (Datatypes.S (drawn s))) /\
    tape s' = tape s /\
    drawn s' = Datatypes.S (Datatypes.S (drawn s)).
Proof.
  intros Hj Hpk e. unfold Signature_body.
  rewrite decide_True by done.
  destruct (RandomN_val s) as (cj & s1 & Hr1 & Hf1 & Hh1 & Ht1 & Hd1).
  destruct (RandomN_val s1) as (tj & s2 & Hr2 & Hf2 & Hh2 & Ht2 & Hd2).
  assert (heap s2 !! cj = Some (tape s (drawn s))) as Hc.
  { rewrite Hh2, lookup_insert_ne, Hh1, lookup_insert_eq; [done|].
    intros ->. by rewrite Hh1, lookup_insert_eq in Hf2. }
  assert (heap s2 !! tj = Some (tape s (Datatypes.S (drawn s)))) as Ht.
  { by rewrite Hh2, lookup_insert_eq, Ht1, Hd1. }
  exists cj, tj, s2. split; [|repeat split].
  - mrun (mrun (exact Hr1); mrun (exact Hr2); mrun (by apply lift_index_val);
          mrun (by apply load_val); mrun (by apply load_val); reflexivity).
    reflexivity.
  - rewrite Hh2, Hh1.
    etrans; [apply (insert_subseteq _ cj); done|].
    apply insert_subseteq. by rewrite <- Hh1.
  - done.
  - done.
  - congruence.
  - congruence.
Qed.

(** The signer's own iteration: a zero cell twice in [ctlist], and [r]
    in a new cell. *)
Lemma Signature_body_own r hashp hashSP signer j v s pk :
  Z.of_nat j = signer ->
  let e := Own (tape s (drawn s)) in
  exists dummy rp s',
    Signature_body r hashp hashSP signer j v s
    = Val ({| ctlist := ctlist v ++ [dummy; dummy];
              ri := Some rp;
              csum := csum v + draw_c e;
              hashAcc := sign_chain hashp hashSP (hashAcc v) (pk, e) |}, s') /\
    heap s ⊆ heap s' /\
    heap s' !! dummy = Some 0 /\
    heap s' !! rp = Some (tape s (drawn s)) /\
    tape s' = tape s /\
    drawn s' = Datatypes.S (drawn s).
Proof.
  intros Hj e. unfold Signature_body.
  rewrite decide_False by (intros Hn; by apply Hn).
  destruct (alloc_val 0 s) as (dummy & s1 & Hr1 & Hf1 & Hh1 & Ht1 & Hd1).
  destruct (RandomN_val s1) as (rp & s2 & Hr2 & Hf2 & Hh2 & Ht2 & Hd2).
  assert (heap s2 !! dummy = Some 0) as Hc.
  { rewrite Hh2, lookup_insert_ne, Hh1, lookup_insert_eq; [done|].
    intros ->. by rewrite Hh1, lookup_insert_eq in Hf2. }
  assert (heap s2 !! rp = Some (tape s (drawn s))) as Ht.
  { by rewrite Hh2, lookup_insert_eq, Ht1, Hd1. }
  exists dummy, rp, s2. split; [|repeat split].
  - mrun (mrun (exact Hr1); mrun (exact Hr2); mrun (by apply load_val);
          reflexivity).
    cbn. by rewrite Z.add_0_r.
  - rewrite Hh2, Hh1.
    etrans; [apply (insert_subseteq _ dummy); done|].
    apply insert_subseteq. by rewrite <- Hh1.
  - done.
  - done.
  - congruence.
  - congruence.
Qed.

Lemma flat_vals_weaken (h h' : gmap positive Z) ps cts :
  h ⊆ h' -> flat_vals h ps cts -> flat_vals h' ps cts.
Proof.
  intros Hsub. induction 1; constructor; eauto using lookup_weaken.
Qed.

Lemma sign_trace_length signer tp (rest : list CurvePoint) :
  forall j d, length (sign_trace signer tp j d rest) = length rest.
Proof.
  induction rest as [|pk rest IH]; intros j d; [done|].
  cbn [sign_trace]. case_decide; cbn; by rewrite IH.
Qed.

(** Past the signer's index the trace holds decoys only. *)
Lemma sign_trace_after signer tp (rest : list CurvePoint) :
  forall j d,
    signer < Z.of_nat j ->
    own_r (sign_trace signer tp j d rest) = None /\
    forall cS tS,
      map (final_pair cS tS) (sign_trace signer tp j d rest)
      = map draw_pair (sign_trace signer tp j d rest).
Proof.
  induction rest as [|pk rest IH]; intros j d Hj; [done|].
  cbn [sign_trace]. rewrite decide_True by lia.
  destruct (IH (Datatypes.S j) (Datatypes.S (Datatypes.S d))) as [Ho Hm]; [lia|].
  split; [done|]. intros cS tS. cbn. by rewrite Hm.
Qed.

(** Up to the signer's index, which holds the only [Own] entry. *)
Lemma sign_trace_at signer tp (rest : list CurvePoint) :
  forall j d,
    Z.of_nat j <= signer < Z.of_nat (j + length rest) ->
    is_Some (own_r (sign_trace signer tp j d rest)) /\
    forall cS tS,
      map (final_pair cS tS) (sign_trace signer tp j d rest)
      = <[(Z.to_nat signer - j)%nat := (cS, tS)]>
          (map draw_pair (sign_trace signer tp j d rest)).
Proof.
  induction rest as [|pk rest IH]; intros j d Hj; [cbn in Hj; lia|].
  cbn [sign_trace length] in *.
  destruct (decide (Z.of_nat j ≠ signer)) as [Hne|Heq].
  - destruct (IH (Datatypes.S j) (Datatypes.S (Datatypes.S d))) as [Ho Hm]; [lia|].
    split; [done|]. intros cS tS. cbn [map final_pair draw_pair].
    rewrite Hm.
    by replace (Z.to_nat signer - j)%nat
      with (Datatypes.S (Z.to_nat signer - Datatypes.S j)) by lia.
  - assert (Z.of_nat j = signer) as Hs by lia.
    destruct (sign_trace_after signer tp rest (Datatypes.S j) (Datatypes.S d))
      as [_ Hm]; [lia|].
    split; [by eexists|]. intros cS tS. cbn [map final_pair draw_pair].
    rewrite Hm.
    by replace (Z.to_nat signer - j)%nat with 0%nat by lia.
Qed.

(** The loop of [Signature], started at any index: the variables and
    the heap afterwards, in terms of the trace of its draws. *)
Lemma Signature_loop r hashp hashSP signer (rest : list CurvePoint) :
  forall pre v s,
    PubKeys r = pre ++ rest ->
    let tr := sign_trace signer (tape s) (length pre) (drawn s) rest in
    exists locs rp s',
      for_loop (length rest) (length pre)
        (Signature_body r hashp hashSP signer) v s
      = Val ({| ctlist := ctlist v ++ locs;
                ri := rp;
                csum := csum v + sum_c tr;
                hashAcc := fold_left (sign_chain hashp hashSP) (zip rest tr)
                             (hashAcc v) |}, s') /\
      heap s ⊆ heap s' /\
      tape s' = tape s /\
      length locs = (2 * length rest)%nat /\
      flat_vals (heap s') locs (map draw_pair tr) /\
      match own_r tr with
      | Some rv => exists p, rp = Some p /\ heap s' !! p = Some rv
      | None => rp = ri v
      end.
Proof.
  induction rest as [|pk rest IH]; intros pre v s Hr tr.
  - exists [], (ri v), s. cbn. rewrite app_nil_r, Z.add_0_r.
    repeat split; try done; [by destruct v|constructor].
  - assert (PubKeys r !! length pre = Some pk) as Hpk
      by (rewrite Hr; by apply list_lookup_middle).
    assert (PubKeys r = (pre ++ [pk]) ++ rest) as Hr'
      by (by rewrite <- app_assoc).
    assert (length (pre ++ [pk]) = Datatypes.S (length pre)) as Hlen
      by (rewrite length_app; cbn; lia).
    subst tr. cbn [sign_trace length].
    destruct (decide (Z.of_nat (length pre) ≠ signer)) as [Hne|Heq].
    + destruct (Signature_body_decoy r hashp hashSP signer _ v s pk Hne Hpk)
        as (cj & tj & s1 & Hb & Hsub & Hc & Ht & Htape & Hd).
      lazymatch type of Hb with
      | _ = Val (?v1, _) =>
          destruct (IH (pre ++ [pk]) v1 s1 Hr')
            as (locs & rp & s' & Hloop & Hsub' & Htape' & Hl & Hflat & Hown)
      end.
      rewrite Hlen, Htape, Hd in *. cbn [ctlist ri csum hashAcc] in *.
      exists (cj :: tj :: locs), rp, s'.
      rewrite (for_loop_M_step _ _ _ _ _ _ _ Hb), Hloop.
      rewrite <- app_assoc. cbn [app zip zip_with fold_left sum_c fold_right].
      rewrite Z.add_assoc.
      repeat split; try done.
      * by etrans.
      * cbn. lia.
      * constructor; eauto using lookup_weaken.
    + assert (Z.of_nat (length pre) = signer) as Hs
        by (destruct (decide (Z.of_nat (length pre) = signer)); [done|by destruct Heq]).
      destruct (Signature_body_own r hashp hashSP signer _ v s pk Hs)
        as (dm & rp0 & s1 & Hb & Hsub & Hc & Ht & Htape & Hd).
      lazymatch type of Hb with
      | _ = Val (?v1, _) =>
          destruct (IH (pre ++ [pk]) v1 s1 Hr')
            as (locs & rp & s' & Hloop & Hsub' & Htape' & Hl & Hflat & Hown)
      end.
      rewrite Hlen, Htape, Hd in *. cbn [ctlist ri csum hashAcc] in *.
      destruct (sign_trace_after signer (tape s) rest
                  (Datatypes.S (length pre)) (Datatypes.S (drawn s)))
        as [Hnone _]; [lia|].
      rewrite Hnone in Hown. subst rp.
      exists (dm :: dm :: locs), (Some rp0), s'.
      rewrite (for_loop_M_step _ _ _ _ _ _ _ Hb), Hloop.
      rewrite <- app_assoc. cbn [app zip zip_with fold_left sum_c fold_right].
      rewrite Z.add_assoc.
      repeat split; try done.
      * by etrans.
      * cbn. lia.
      * constructor; eauto using lookup_weaken.
      * cbn. eauto using lookup_weaken.
Qed.

Lemma flat_vals_insert (h : gmap positive Z) ps cts :
  flat_vals h ps cts ->
  forall (k : nat) c t cv tv,
    (k < length cts)%nat ->
    h !! c = Some cv ->
    h !! t = Some tv ->
    flat_vals h (<[(2 * k + 1)%nat := t]> (<[(2 * k)%nat := c]> ps))
      (<[k := (cv, tv)]> cts).
Proof.
  induction 1 as [|cj tj ps c0 t0 cts Hc0 Ht0 Hf IH];
    intros k c t cv tv Hk Hc Ht; [cbn in Hk; lia|].
  destruct k as [|k].
  - cbn. by constructor.
  - replace (2 * Datatypes.S k)%nat with (Datatypes.S (Datatypes.S (2 * k))) by lia.
    cbn. constructor; [done..|].
    apply IH; [cbn in Hk; lia|done..].
Qed.

Lemma assign_val {A : Type} (xs : list A) (i : Z) (v : A) s :
  0 <= i < Z.of_nat (length xs) ->
  lift (assign xs i v) s = Val (<[Z.to_nat i := v]> xs, s).
Proof. intros Hi. unfold assign. by rewrite decide_True. Qed.

(** [Signature] on an existing secret cell and a signer index in range:
    it returns, and the signature and the heap afterwards are as
    follows. *)
Lemma Signature_val r pk message signer s x :
  heap s !! pk = Some x ->
  0 <= signer < Z.of_nat (length (PubKeys r)) ->
  let hashp := NewCurvePointFromHash (copy32 message) in
  let x' := x mod Order in
  let hashSP := ScalarMult hashp x' in
  let tr := sign_trace signer (tape s) 0 (drawn s) (PubKeys r) in
  let hashn := fold_left (sign_chain hashp hashSP) (zip (PubKeys r) tr)
                 (Sum256 (take 32 (Marshal hashp) ++ Marshal hashSP)) in
  let cS := (SetBytes hashn mod Order - sum_c tr mod Order) mod Order in
  exists rv,
    own_r tr = Some rv /\
    let tS := (rv - (cS * x') mod Order) mod Order in
    exists sigma s',
      Signature r pk message signer s = Val (sigma, s') /\
      Tau sigma = hashSP /\
      length (Ctlist sigma) = (2 * length (PubKeys r))%nat /\
      flat_vals (heap s') (Ctlist sigma) (map (final_pair cS tS) tr) /\
      <[pk := x']> (heap s) ⊆ heap s' /\
      tape s' = tape s.
Proof.
  intros Hpk Hs hashp x' hashSP tr hashn cS.
  destruct (sign_trace_at signer (tape s) (PubKeys r) 0 (drawn s))
    as [[rv Hrv] Hfinal]; [cbn; lia|].
  fold tr in Hrv, Hfinal. exists rv. split; [done|]. intros tS.
  set (s0 := set_heap (alter (fun v => v mod Order) pk (heap s)) s).
  assert (heap s0 = <[pk := x']> (heap s)) as Hh0
    by (symmetry; exact (alter_as_insert (fun v => v mod Order) pk x (heap s) Hpk)).
  assert (heap s0 !! pk = Some x') as Hpk0 by (by rewrite Hh0, lookup_insert_eq).
  destruct (Signature_loop r hashp hashSP signer (PubKeys r) []
              {| ctlist := []; ri := None; csum := 0;
                 hashAcc := Sum256 (take 32 (Marshal hashp) ++ Marshal hashSP) |}
              s0 eq_refl)
    as (locs & rp & s1 & Hloop & Hsub1 & Htape1 & Hlen & Hflat & Hown).
  cbn [ctlist ri csum hashAcc length app tape drawn s0 set_heap] in Hloop, Hown, Hflat.
  fold tr in Hloop, Hown, Hflat. fold hashn in Hloop.
  rewrite Hrv in Hown. destruct Hown as (rcell & -> & Hrcell).
  destruct (alloc_val cS s1) as (c & s2 & Hc & Hcf & Hh2 & Htape2 & _).
  assert (heap s1 ⊆ heap s2) as Hsub2
    by (rewrite Hh2; by apply insert_subseteq).
  assert (heap s2 !! c = Some cS) as Hcv by (by rewrite Hh2, lookup_insert_eq).
  destruct (alloc_val tS s2) as (ti & s3 & Hti & Htf & Hh3 & Htape3 & _).
  assert (heap s2 ⊆ heap s3) as Hsub3
    by (rewrite Hh3; by apply insert_subseteq).
  assert (heap s3 !! ti = Some tS) as Htv by (by rewrite Hh3, lookup_insert_eq).
  set (k := Z.to_nat signer).
  assert (length tr = length (PubKeys r)) as Htr by apply sign_trace_length.
  exists {| Tau := hashSP;
            Ctlist := <[(2 * k + 1)%nat := ti]> (<[(2 * k)%nat := c]> locs) |}, s3.
  split; [|repeat split].
  - unfold Signature.
    mrun (by eapply Mod_in_place_val). fold s0.
    mrun (by apply load_val).
    fold hashp x' hashSP.
    mrun (exact Hloop).
    cbn [ctlist ri csum hashAcc]. fold cS.
    mrun (exact Hc).
    mrun (by apply load_val).
    mrun (apply load_val; eauto using lookup_weaken).
    fold tS.
    mrun (mrun (by apply load_val; eauto using lookup_weaken); exact Hti).
    mrun (apply assign_val; lia).
    mrun (apply assign_val; rewrite length_insert; lia).
    replace (Z.to_nat (2 * signer)) with (2 * k)%nat by lia.
    replace (Z.to_nat (2 * signer + 1)) with (2 * k + 1)%nat by lia.
    reflexivity.
  - cbn. rewrite !length_insert. lia.
  - cbn [Ctlist]. rewrite Hfinal, Nat.sub_0_r. fold k.
    apply flat_vals_insert.
    + eapply flat_vals_weaken; [|exact Hflat]. by etrans.
    + rewrite length_map. lia.
    + eauto using lookup_weaken.
    + done.
  - rewrite <- Hh0. etrans; [exact Hsub1|]. by etrans.
  - by rewrite Htape3, Htape2, Htape1.
Qed.

(** Before the signer's index is reached the trace holds decoys only. *)
Lemma sign_trace_before signer tp (rest : list CurvePoint) :
  forall j d,
    Z.of_nat (j + length rest) <= signer ->
    own_r (sign_trace signer tp j d rest) = None.
Proof.
  induction rest as [|pk rest IH]; intros j d Hj; [done|].
  cbn [sign_trace length] in *. rewrite decide_True by lia.
  cbn. apply IH. lia.
Qed.

(** A signer index out of range leaves [ri] nil, and [Signature]
    panics: a signature is produced for indices in range only. *)
Lemma Signature_produces r pk message signer s x sigma s' :
  heap s !! pk = Some x ->
  Signature r pk message signer s = Val (sigma, s') ->
  0 <= signer < Z.of_nat (length (PubKeys r)).
Proof.
  intros Hpk Hsig.
  destruct (decide (0 <= signer < Z.of_nat (length (PubKeys r)))) as [|Hout];
    [done|exfalso].
  set (s0 := set_heap (alter (fun v => v mod Order) pk (heap s)) s).
  assert (heap s0 !! pk = Some (x mod Order)) as Hpk0
    by (cbn; by rewrite lookup_alter, decide_True, Hpk).
  set (hashp := NewCurvePointFromHash (copy32 message)) in *.
  set (hashSP := ScalarMult hashp (x mod Order)) in *.
  destruct (Signature_loop r hashp hashSP signer (PubKeys r) []
              {| ctlist := []; ri := None; csum := 0;
                 hashAcc := Sum256 (take 32 (Marshal hashp) ++ Marshal hashSP) |}
              s0 eq_refl)
    as (locs & rp & s1 & Hloop & Hsub1 & _ & _ & _ & Hown).
  assert (own_r (sign_trace signer (tape s0) 0 (drawn s0) (PubKeys r)) = None)
    as Hnone.
  { destruct (decide (signer < 0)).
    - by apply sign_trace_after.
    - apply sign_trace_before. cbn. lia. }
  cbn [length] in Hown. rewrite Hnone in Hown. cbn in Hown. subst rp.
  revert Hsig. unfold Signature.
  mrun (by eapply Mod_in_place_val). fold s0.
  mrun (by apply load_val).
  fold hashp hashSP.
  mrun (exact Hloop).
  cbn [ctlist ri csum hashAcc].
  match goal with
  | |- context [alloc ?v] =>
      destruct (alloc_val v s1) as (c & s2 & Hc & Hcf & Hh2 & _)
  end.
  mrun (exact Hc).
  mrun (apply load_val; by rewrite Hh2, lookup_insert_eq).
  mrun (apply load_val; rewrite Hh2, lookup_insert_ne;
        [by eapply lookup_weaken|intros ->;
         eapply lookup_weaken in Hpk0; [|exact Hsub1]; congruence]).
  by rewrite bind_M_panic.
Qed.

End HeapProofs.

Section RingTheorems.
Context {C : Curve} {H : Sha256}.

Lemma copy32_length (message : list byte) : length (copy32 message) = 32%nat.
Proof.
  unfold copy32. rewrite length_app, length_take, length_replicate. lia.
Qed.

Lemma copy32_exact (message : list byte) :
  length message = 32%nat -> copy32 message = message.
Proof.
  intros Hl. unfold copy32. rewrite Hl, take_ge by lia. cbn.
  apply app_nil_r.
Qed.

Lemma copy32_idem (message : list byte) :
  copy32 (copy32 message) = copy32 message.
Proof. apply copy32_exact, copy32_length. Qed.

(** C3. Every signature [Signature] produces for the secret [x] and
    the message [m] has [tau = [x mod N] HashToCurve(m)], the point
    being hashed from the 32-byte buffer the message is copied to (the
    message itself when it has 32 bytes).  So two signatures made with
    the same secret over the same message have the same [tau], whatever
    the rings, the signer indices and the random draws. *)
Theorem tau_is_key_image (r1 r2 : Ring) (pk1 pk2 : positive) (x : Z)
    (message : list byte) (signer1 signer2 : Z) (s1 s2 : state)
    (sigma1 sigma2 : RingSignature) (s1' s2' : state) :
  heap s1 !! pk1 = Some x ->
  heap s2 !! pk2 = Some x ->
  Signature r1 pk1 message signer1 s1 = Val (sigma1, s1') ->
  Signature r2 pk2 message signer2 s2 = Val (sigma2, s2') ->
  Tau sigma1
    = ScalarMult (NewCurvePointFromHash (copy32 message)) (x mod Order) /\
  (length message = 32%nat -> copy32 message = message) /\
  Tau sigma1 = Tau sigma2.
Proof.
  intros Hpk1 Hpk2 Hsig1 Hsig2.
  pose proof (Signature_produces _ _ _ _ _ _ _ _ Hpk1 Hsig1) as Hin1.
  pose proof (Signature_produces _ _ _ _ _ _ _ _ Hpk2 Hsig2) as Hin2.
  destruct (Signature_val r1 pk1 message signer1 s1 x Hpk1 Hin1)
    as (_ & _ & sg1 & t1 & Hv1 & Htau1 & _).
  destruct (Signature_val r2 pk2 message signer2 s2 x Hpk2 Hin2)
    as (_ & _ & sg2 & t2 & Hv2 & Htau2 & _).
  rewrite Hsig1 in Hv1. rewrite Hsig2 in Hv2.
  injection Hv1 as <- <-. injection Hv2 as <- <-.
  split; [done|]. split; [apply copy32_exact|congruence].
Qed.

(** C8, as amended.  [Signature] accepts a message of any length: with
    an existing secret cell and a signer index in range it returns a
    signature, and the signature is the one of the 32-byte buffer that
    holds the first 32 bytes of the message, padded with zeros. *)
Theorem Signature_any_length (r : Ring) (pk : positive) (x : Z)
    (message : list byte) (signer : Z) (s : state) :
  heap s !! pk = Some x ->
  0 <= signer < Z.of_nat (length (PubKeys r)) ->
  (exists sigma s', Signature r pk message signer s = Val (sigma, s')) /\
  Signature r pk message signer s
    = Signature r pk (copy32 message) signer s /\
  length (copy32 message) = 32%nat.
Proof.
  intros Hpk Hin. split; [|split].
  - destruct (Signature_val r pk message signer s x Hpk Hin)
      as (_ & _ & sigma & s' & Hv & _).
    by exists sigma, s'.
  - unfold Signature. by rewrite copy32_idem.
  - apply copy32_length.
Qed.

(** C4, as amended.  When the [ct] list has at least [2n] entries and
    the first [2n] are not nil, [VerifySignature] returns a boolean
    without panicking.  It reads the first [2n] entries only: the
    boolean is the verdict on their values, [false] when the equation
    between the sum of the [c]s and the hash fails, and the same as for
    the list cut to [2n] entries, so that a longer list is not rejected
    for its length. *)
Theorem VerifySignature_long_enough (r : Ring) (message : list byte)
    (sigma : RingSignature) (s : state) :
  let n := length (PubKeys r) in
  (2 * n <= length (Ctlist sigma))%nat ->
  Forall (fun p => is_Some (heap s !! p)) (take (2 * n) (Ctlist sigma)) ->
  exists b s' cts,
    VerifySignature r message sigma s = Val (b, s') /\
    VerifySignature r message
      {| Tau := Tau sigma; Ctlist := take (2 * n) (Ctlist sigma) |} s
      = Val (b, s') /\
    length cts = n /\
    flat_vals (heap s) (Ctlist sigma) cts /\
    b = verdict r message (Tau sigma) cts.
Proof.
  intros n Hlen Hall.
  destruct (flat_vals_exists (heap s) n (Ctlist sigma) Hlen Hall)
    as (cts & Hl & Hflat).
  eexists _, _, cts. split; [|split; [|done]].
  - by apply VerifySignature_val.
  - rewrite (VerifySignature_val _ _ _ _ cts); [|done|].
    + cbn [Tau Ctlist]. fold n. by rewrite take_take, Nat.min_id.
    + cbn [Ctlist]. rewrite <- Hl. by apply flat_vals_take.
Qed.

(** C5, as amended.  [Signature] overwrites the caller's secret with
    its residue modulo [N], which changes it unless it lies in
    [[0, N)], and changes no other cell the caller has.
    [VerifySignature] overwrites each of the first [2n] cells of the
    [ct] list with its residue, which changes those not in [[0, N)], and
    changes no other cell.  The ring is an argument that neither
    function writes to. *)
Theorem reduced_in_place (r : Ring) (pk : positive) (x : Z)
    (message : list byte) (signer : Z) (s : state)
    (sigma : RingSignature) (s0 : state) :
  heap s !! pk = Some x ->
  0 <= signer < Z.of_nat (length (PubKeys r)) ->
  (2 * length (PubKeys r) <= length (Ctlist sigma))%nat ->
  Forall (fun p => is_Some (heap s0 !! p))
    (take (2 * length (PubKeys r)) (Ctlist sigma)) ->
  (exists sg s',
     Signature r pk message signer s = Val (sg, s') /\
     tape s' = tape s /\
     (forall p v, heap s !! p = Some v ->
        heap s' !! p = Some (if decide (p = pk) then v mod Order else v))) /\
  (exists b s',
     VerifySignature r message sigma s0 = Val (b, s') /\
     tape s' = tape s0 /\ drawn s' = drawn s0 /\
     forall p,
       heap s' !! p =
         if decide (p ∈ take (2 * length (PubKeys r)) (Ctlist sigma))
         then (fun v => v mod Order) <$> heap s0 !! p
         else heap s0 !! p).
Proof.
  intros Hpk Hin Hlen Hall. split.
  - destruct (Signature_val r pk message signer s x Hpk Hin)
      as (_ & _ & sg & s' & Hv & _ & _ & _ & Hsub & Htape).
    exists sg, s'. split; [done|]. split; [done|]. intros p v Hp.
    eapply lookup_weaken; [|exact Hsub].
    case_decide as Hd.
    + subst p. rewrite Hpk in Hp. injection Hp as <-.
      apply lookup_insert_eq.
    + rewrite lookup_insert_ne by done. exact Hp.
  - destruct (flat_vals_exists (heap s0) _ (Ctlist sigma) Hlen Hall)
      as (cts & Hl & Hflat).
    eexists _, _. split; [by apply (VerifySignature_val _ _ _ _ cts)|].
    cbn. repeat split. intros p. apply lookup_reduce_cells.
Qed.

End RingTheorems.

(** *** Completeness *)

Section Completeness.
Context {C : Curve} {H : Sha256} `{!CurveLaws C}.

Lemma mod_cancel_product (r c x : Z) :
  ((r - (c * x) mod Order) mod Order + x * c) mod Order = r mod Order.
Proof.
  pose proof Order_nonzero.
  rewrite Z.add_mod_idemp_l by done.
  rewrite (Z.mod_eq (c * x) Order) by done.
  replace (r - (c * x - Order * (c * x / Order)) + x * c)
    with (r + (c * x / Order) * Order) by lia.
  apply Z_mod_plus_full.
Qed.

(** The verifier recomputes the signer's points [[r]G] and [[r]Hp] from
    the closing pair [(c, t)], whatever [c] is. *)
Lemma own_points (hashp : CurvePoint) (x r cS tS : Z) :
  0 <= x -> 0 <= r -> 0 <= cS ->
  tS = (r - (cS * x) mod Order) mod Order ->
  Add (ScalarBaseMult tS) (ScalarMult (ScalarBaseMult x) cS) = ScalarBaseMult r /\
  Add (ScalarMult hashp tS) (ScalarMult (ScalarMult hashp x) cS)
    = ScalarMult hashp r.
Proof.
  intros Hx Hr Hc ->.
  pose proof Order_pos as HN.
  pose proof (Z.mod_pos_bound (r - (cS * x) mod Order) Order HN) as Ht.
  assert (0 <= x * cS) as Hxc by lia.
  split.
  - rewrite ScalarBaseMult_mul, ScalarBaseMult_add by lia.
    rewrite <- ScalarBaseMult_mod by lia.
    rewrite mod_cancel_product. by apply ScalarBaseMult_mod.
  - rewrite ScalarMult_mul, ScalarMult_add by lia.
    rewrite <- ScalarMult_mod by lia.
    rewrite mod_cancel_product. by apply ScalarMult_mod.
Qed.

Section Chain.
Variables (hashp : CurvePoint) (signer : Z) (tp : nat -> Z) (x cS tS : Z).
Hypothesis draws_in_range : forall k, 1 <= tp k < Order.
Hypothesis x_nonneg : 0 <= x.
Hypothesis cS_range : 0 <= cS < Order.
Hypothesis tS_range : 0 <= tS < Order.

Let hashSP := ScalarMult hashp x.

(** Over the iterations that remain, the verifier's hash chain on the
    finished pairs is the signer's, and its sum of the [c]s is the
    signer's plus the closing [c]. *)
Lemma chain_agree (rest : list CurvePoint) :
  forall j d v,
    (forall i pk, rest !! i = Some pk -> Z.of_nat (j + i) = signer ->
                  pk = ScalarBaseMult x) ->
    (forall r, own_r (sign_trace signer tp j d rest) = Some r ->
               tS = (r - (cS * x) mod Order) mod Order) ->
    let tr := sign_trace signer tp j d rest in
    let res := fold_left (verify_step hashp hashSP)
                 (zip rest (map (final_pair cS tS) tr)) v in
    v_hashAcc res
      = fold_left (sign_chain hashp hashSP) (zip rest tr) (v_hashAcc v) /\
    v_csum res mod Order
      = (v_csum v + sum_c tr
         + match own_r tr with Some _ => cS | None => 0 end) mod Order.
Proof.
  pose proof Order_nonzero as HN.
  induction rest as [|pk rest IH]; intros j d v Hkey Hown.
  - cbn. split; [done|]. f_equal. lia.
  - cbn [sign_trace] in *.
    destruct (decide (Z.of_nat j ≠ signer)) as [Hne|Heq].
    + cbn [map final_pair zip zip_with fold_left own_r sum_c fold_right draw_c] in *.
      pose proof (draws_in_range d) as Hc.
      pose proof (draws_in_range (Datatypes.S d)) as Ht.
      destruct (IH (Datatypes.S j) (Datatypes.S (Datatypes.S d))
                  (verify_step hashp hashSP v (pk, (tp d, tp (Datatypes.S d)))))
        as [IHh IHc].
      { intros i pk' Hi Hji. apply (Hkey (Datatypes.S i)); [done|lia]. }
      { done. }
      split.
      * rewrite IHh. f_equal.
        unfold verify_step, sign_chain. cbn.
        by rewrite !Z.mod_small by lia.
      * rewrite IHc. cbn [verify_step v_csum].
        rewrite (Z.mod_small (tp d)) by lia.
        rewrite <- !Z.add_assoc. rewrite Z.add_mod_idemp_l by done.
        f_equal. unfold sum_c. lia.
    + assert (Z.of_nat j = signer) as Hs
        by (destruct (decide (Z.of_nat j = signer)); [done|by destruct Heq]).
      cbn [map final_pair zip zip_with fold_left own_r sum_c fold_right draw_c] in *.
      pose proof (draws_in_range d) as Hr.
      assert (pk = ScalarBaseMult x) as ->
        by (apply (Hkey 0%nat); [done|lia]).
      destruct (sign_trace_after signer tp rest (Datatypes.S j) (Datatypes.S d))
        as [Hnone _]; [lia|].
      destruct (IH (Datatypes.S j) (Datatypes.S d)
                  (verify_step hashp hashSP v (ScalarBaseMult x, (cS, tS))))
        as [IHh IHc].
      { intros i pk' Hi Hji. lia. }
      { rewrite Hnone. done. }
      rewrite Hnone in IHc.
      destruct (own_points hashp x (tp d) cS tS) as [Ha Hb];
        [lia..|by apply Hown|].
      split.
      * rewrite IHh. f_equal.
        unfold verify_step, sign_chain. cbn.
        rewrite !Z.mod_small by lia. fold hashSP in Hb.
        by rewrite Ha, Hb.
      * rewrite IHc. cbn [verify_step v_csum].
        rewrite (Z.mod_small cS) by lia.
        rewrite <- !Z.add_assoc. rewrite Z.add_mod_idemp_l by done.
        f_equal. unfold sum_c. lia.
Qed.

End Chain.

Lemma mod_cancel_sum (a h : Z) :
  (a + (h mod Order - a mod Order) mod Order) mod Order = h mod Order.
Proof.
  pose proof Order_nonzero.
  rewrite Z.add_mod_idemp_r by done.
  rewrite (Z.mod_eq a Order) by done.
  replace (a + (h mod Order - (a - Order * (a / Order))))
    with (h mod Order + (a / Order) * Order) by lia.
  rewrite Z_mod_plus_full. by apply Z.mod_mod.
Qed.

(** C1. Completeness.  For a ring with [n] keys, a signer index
    [0 <= s < n], a 32-byte message, a valid secret [x] with
    [[x]G = R.pub[s]] and any draws of the random source (each in
    [[1, N)]), [Signature] returns a signature and [VerifySignature]
    returns [true] for it. *)
Theorem ring_signature_complete (r : Ring) (pk : positive) (x : Z)
    (message : list byte) (signer : Z) (s : state) :
  heap s !! pk = Some x ->
  1 <= x < Order ->
  length message = 32%nat ->
  0 <= signer < Z.of_nat (length (PubKeys r)) ->
  PubKeys r !! Z.to_nat signer = Some (ScalarBaseMult x) ->
  (forall k, 1 <= tape s k < Order) ->
  exists sigma s1 s2,
    Signature r pk message signer s = Val (sigma, s1) /\
    VerifySignature r message sigma s1 = Val (true, s2).
Proof.
  intros Hpk Hx _ Hin Hkey Hdraws.
  pose proof Order_pos as HN.
  destruct (Signature_val r pk message signer s x Hpk Hin)
    as (rv & Hrv & sigma & s1 & Hsig & Htau & Hlen & Hflat & _ & _).
  rewrite (Z.mod_small x) in * by lia.
  set (hashp := NewCurvePointFromHash (copy32 message)) in *.
  set (tr := sign_trace signer (tape s) 0 (drawn s) (PubKeys r)) in *.
  set (hashn := fold_left _ (zip (PubKeys r) tr) _) in *.
  set (cS := (SetBytes hashn mod Order - sum_c tr mod Order) mod Order) in *.
  set (tS := (rv - (cS * x) mod Order) mod Order) in *.
  exists sigma, s1. eexists. split; [done|].
  rewrite (VerifySignature_val _ _ _ _ (map (final_pair cS tS) tr));
    [|by rewrite length_map; apply sign_trace_length|done].
  do 2 f_equal. unfold verdict, verify_fold. fold hashp. rewrite Htau.
  apply bool_decide_eq_true.
  destruct (chain_agree hashp signer (tape s) x cS tS Hdraws) with
    (rest := PubKeys r) (j := 0%nat) (d := drawn s)
    (v := {| v_hashAcc := Sum256 (take 32 (Marshal hashp)
                                    ++ Marshal (ScalarMult hashp x));
             v_csum := 0 |}) as [Hhash Hsum].
  - lia.
  - apply Z.mod_pos_bound. lia.
  - apply Z.mod_pos_bound. lia.
  - intros i pk' Hi Hs. replace i with (Z.to_nat signer) in Hi by lia.
    congruence.
  - fold tr. rewrite Hrv. by intros r' [= <-].
  - fold tr in Hhash, Hsum. rewrite Hsum, Hhash. cbn [v_hashAcc v_csum].
    fold hashn. rewrite Hrv, Z.add_0_l. apply mod_cancel_sum.
Qed.

End Completeness.

(** ** Further properties of the code *)

(** *** Bytes of integers *)

Lemma byte_to_of_Z (w : Z) : byte_to_Z (byte_of_Z w) = w mod 256.
Proof.
  unfold byte_to_Z, byte_of_Z.
  pose proof (Z.mod_pos_bound w 256 eq_refl) as Hw.
  destruct (Byte.of_N (Z.to_N (w mod 256))) as [b|] eqn:Hb.
  - cbn. rewrite (Byte.to_of_N _ Hb). lia.
  - apply Byte.of_N_None_iff in Hb. lia.
Qed.

Lemma SetBytes_fold (data : list byte) (z : Z) :
  fold_left (fun z b => z * 256 + byte_to_Z b) data z
  = z * 256 ^ Z.of_nat (length data) + SetBytes data.
Proof.
  unfold SetBytes. revert z.
  induction data as [|b data IH]; intros z; cbn [fold_left length].
  - cbn. lia.
  - rewrite IH, (IH (0 * 256 + byte_to_Z b)), Nat2Z.inj_succ, Z.pow_succ_r by lia.
    ring.
Qed.

Lemma SetBytes_cons (b : byte) (data : list byte) :
  SetBytes (b :: data)
  = byte_to_Z b * 256 ^ Z.of_nat (length data) + SetBytes data.
Proof. unfold SetBytes at 1. cbn [fold_left]. by rewrite SetBytes_fold. Qed.

(** The digits [pos_bytes] puts in front of [acc] are those of [z]. *)
Lemma SetBytes_pos_bytes (fuel : nat) :
  forall z acc,
    0 <= z < 2 ^ Z.of_nat fuel ->
    SetBytes (pos_bytes fuel z acc)
    = z * 256 ^ Z.of_nat (length acc) + SetBytes acc.
Proof.
  induction fuel as [|fuel IH]; intros z acc Hz; cbn [pos_bytes].
  - cbn in Hz. replace z with 0 by lia. lia.
  - case_decide as Hpos; [replace z with 0 by lia; lia|].
    rewrite Nat2Z.inj_succ, Z.pow_succ_r in Hz by lia.
    rewrite IH; cycle 1.
    { split; [apply Z.div_pos; lia|].
      apply Z.div_lt_upper_bound; lia. }
    rewrite SetBytes_cons, byte_to_of_Z, Z.mod_mod by lia.
    cbn [length]. rewrite Nat2Z.inj_succ, Z.pow_succ_r by lia.
    rewrite (Z.div_mod z 256) at 3 by lia. ring.
Qed.

Lemma SetBytes_Bytes (z : Z) : SetBytes (Bytes z) = Z.abs z.
Proof.
  unfold Bytes. rewrite SetBytes_pos_bytes; [cbn; lia|].
  pose proof (Z.abs_nonneg z) as Ha.
  pose proof (Z.log2_nonneg (Z.abs z)) as Hl.
  split; [done|].
  replace (Z.of_nat (Z.to_nat (Z.log2 (Z.abs z)) + 1))
    with (Z.succ (Z.log2 (Z.abs z))) by lia.
  destruct (decide (Z.abs z = 0)) as [->|Hnz]; [done|].
  apply Z.log2_spec. lia.
Qed.

Lemma Bytes_abs (z z' : Z) : Z.abs z = Z.abs z' -> Bytes z = Bytes z'.
Proof. intros Heq. unfold Bytes. by rewrite Heq. Qed.

(** X5. The two conversions between integers and bytes that the code
    uses are inverse to each other up to the sign: [convert], which is
    [SetBytes], reads the bytes that [Bytes] writes as the absolute
    value of the integer. *)
Theorem convert_Bytes (z : Z) :
  convert (Bytes z) = Z.abs z /\ Bytes (- z) = Bytes z.
Proof.
  split; [apply SetBytes_Bytes|]. apply Bytes_abs, Z.abs_opp.
Qed.

(** *** Sessions *)

Section SessionProofs.
Context {C : Curve} {H : Sha256}.

Lemma deriveSharedSecret_length (myPriv : Z) (theirPub : CurvePoint) :
  length (deriveSharedSecret myPriv theirPub) = 32%nat.
Proof.
  unfold deriveSharedSecret. rewrite length_take, Marshal_length. lia.
Qed.

(** A session that was returned, taken apart. *)
Lemma NewStealthSession_val (mySecret : Z) (theirPub : CurvePoint)
    (nonceOffset addressCount : Z) (sess : StealthSession) :
  NewStealthSession mySecret (Some theirPub) nonceOffset addressCount = Val sess ->
  let shared := deriveSharedSecret mySecret theirPub in
  let n := Z.to_nat addressCount in
  isValidSecretKey mySecret = true /\
  sess = {| MyPublic := derivePublicKey mySecret;
            TheirPublic := theirPub;
            SharedSecret := shared;
            TheirAddresses := map (their_at theirPub shared nonceOffset) (seq 0 n);
            MyAddresses := map (my_at mySecret shared nonceOffset) (seq 0 n) |} /\
  (forall i, (i < n)%nat ->
     IsOnCurve theirPub = true /\
     priv_passes mySecret shared nonceOffset i = true).
Proof.
  intros Hret shared n. unfold NewStealthSession in Hret.
  destruct (isValidSecretKey mySecret) eqn:Hv; [|done]. cbn in Hret.
  destruct (for_loop _ _ _ _) as [[t m]| |] eqn:Hloop; try done.
  injection Hret as <-.
  apply (NewStealthSession_loop_returns _ _ _ Hv) in Hloop as (-> & -> & Hall).
  split; [done|]. split; [done|]. intros i Hi. apply Hall. lia.
Qed.

Lemma secret_at_nonce (shared : list byte) (off off' : Z) (i j : nat) :
  Z.abs (nonce_at off i) = Z.abs (nonce_at off' j) ->
  secret_at shared off i = secret_at shared off' j.
Proof. intros Heq. unfold secret_at. by rewrite (Bytes_abs _ _ Heq). Qed.


(** X4. In a returned session, two indices whose nonces have the same
    absolute value (as [-1] and [1] have, [Bytes] dropping the sign)
    carry the same keys: the same stealth public key of the other
    party, and the same stealth secret and public key of mine. *)
Theorem NewStealthSession_nonce_sign (mySecret : Z) (theirPub : CurvePoint)
    (nonceOffset addressCount : Z) (sess : StealthSession) (i j : nat)
    (sa sa' : StealthAddress) (psa psa' : PrivateStealthAddress) :
  NewStealthSession mySecret (Some theirPub) nonceOffset addressCount = Val sess ->
  TheirAddresses sess !! i = Some sa ->
  TheirAddresses sess !! j = Some sa' ->
  MyAddresses sess !! i = Some psa ->
  MyAddresses sess !! j = Some psa' ->
  Z.abs (sa_Nonce sa) = Z.abs (sa_Nonce sa') ->
  sa_Public sa = sa_Public sa' /\
  psa_Private psa = psa_Private psa' /\
  psa_Public psa = psa_Public psa'.
Proof.
  intros Hret Hi Hj Hi' Hj' Habs.
  apply NewStealthSession_val in Hret as (_ & -> & _).
  cbn [TheirAddresses MyAddresses] in *.
  apply list_lookup_fmap_Some in Hi as (i0 & -> & Hi).
  apply list_lookup_fmap_Some in Hj as (j0 & -> & Hj).
  apply list_lookup_fmap_Some in Hi' as (i1 & -> & Hi').
  apply list_lookup_fmap_Some in Hj' as (j1 & -> & Hj').
  apply lookup_seq in Hi as [-> _]. apply lookup_seq in Hj as [-> _].
  apply lookup_seq in Hi' as [-> _]. apply lookup_seq in Hj' as [-> _].
  cbn in *. by rewrite (secret_at_nonce _ _ _ _ _ Habs).
Qed.

Lemma nonce_at_shift (off : Z) (k i : nat) :
  nonce_at (off + Z.of_nat k) i = nonce_at off (k + i).
Proof. unfold nonce_at. f_equal. lia. Qed.

(** X3. The addresses of a session depend on the nonce alone.  When the
    session for the nonces [off, ..., off + k + n - 1] is returned, so is
    the session for the window [off + k, ..., off + k + n - 1], and its
    addresses are those of the first session from index [k] on. *)
Theorem NewStealthSession_window (mySecret : Z) (theirPub : CurvePoint)
    (off : Z) (k n : nat) (sess : StealthSession) :
  NewStealthSession mySecret (Some theirPub) off (Z.of_nat (k + n)) = Val sess ->
  NewStealthSession mySecret (Some theirPub) (off + Z.of_nat k) (Z.of_nat n)
  = Val {| MyPublic := MyPublic sess;
           TheirPublic := TheirPublic sess;
           SharedSecret := SharedSecret sess;
           TheirAddresses := drop k (TheirAddresses sess);
           MyAddresses := drop k (MyAddresses sess) |}.
Proof.
  intros Hret. apply NewStealthSession_val in Hret as (Hv & -> & Hall).
  cbn [MyPublic TheirPublic SharedSecret TheirAddresses MyAddresses].
  set (shared := deriveSharedSecret mySecret theirPub) in *.
  rewrite Nat2Z.id in *.
  assert (forall A (f g : nat -> A),
            (forall i, g i = f (k + i)%nat) ->
            drop k (map f (seq 0 (k + n))) = map g (seq 0 n)) as Hdrop.
  { intros A f g Hfg. rewrite <- fmap_drop, drop_seq.
    replace (k + n - k)%nat with n by lia.
    replace (0 + k)%nat with (k + 0)%nat by lia.
    rewrite <- (fmap_add_seq k 0 n), <- list_fmap_compose.
    apply list_fmap_ext. intros _ i _. cbn. by rewrite Hfg. }
  assert (forall i, secret_at shared (off + Z.of_nat k) i
                    = secret_at shared off (k + i)) as Hsec.
  { intros i. apply secret_at_nonce. by rewrite nonce_at_shift. }
  rewrite (Hdrop _ _ (their_at theirPub shared (off + Z.of_nat k))); cycle 1.
  { intros i. unfold their_at. by rewrite Hsec, nonce_at_shift. }
  rewrite (Hdrop _ _ (my_at mySecret shared (off + Z.of_nat k))); cycle 1.
  { intros i. unfold my_at. by rewrite Hsec, nonce_at_shift. }
  destruct n as [|n].
  - unfold NewStealthSession. by rewrite Hv.
  - rewrite NewStealthSession_returns; [by rewrite Nat2Z.id|done| |].
    + apply (Hall k). lia.
    + rewrite Nat2Z.id. intros i Hi. fold shared.
      destruct (Hall (k + i)%nat) as [_ Hp]; [lia|].
      unfold priv_passes, my_at in *. cbn [psa_Public] in *.
      by rewrite Hsec.
Qed.

(** X1. The shared secret is the same on both sides: what I derive
    from my secret and their public key is what they derive from their
    secret and my public key. *)
Theorem deriveSharedSecret_symmetric `{!CurveLaws C} (a b : Z) :
  0 <= a -> 0 <= b ->
  deriveSharedSecret a (derivePublicKey b)
  = deriveSharedSecret b (derivePublicKey a).
Proof.
  intros Ha Hb. unfold deriveSharedSecret, derivePublicKey.
  by rewrite !ScalarBaseMult_mul, (Z.mul_comm a b) by done.
Qed.

(** X2. The two parties of a session agree.  When I build a session
    from my secret [a] and their public key [[b]G], and they build one
    from [b] and [[a]G] for the same nonces, both hold the same shared
    secret, and at every index the stealth public key I derived for them
    is the public key of the stealth secret they derived for themselves,
    under the same nonce. *)
Theorem sessions_agree `{!CurveLaws C} (a b nonceOffset addressCount : Z)
    (mine theirs : StealthSession) :
  NewStealthSession a (Some (derivePublicKey b)) nonceOffset addressCount
    = Val mine ->
  NewStealthSession b (Some (derivePublicKey a)) nonceOffset addressCount
    = Val theirs ->
  SharedSecret mine = SharedSecret theirs /\
  TheirPublic mine = MyPublic theirs /\
  map sa_Public (TheirAddresses mine) = map psa_Public (MyAddresses theirs) /\
  map sa_Nonce (TheirAddresses mine) = map psa_Nonce (MyAddresses theirs).
Proof.
  intros Hmine Htheirs.
  apply NewStealthSession_val in Hmine as (Ha & -> & _).
  apply NewStealthSession_val in Htheirs as (Hb & -> & _).
  apply isValidSecretKey_spec in Ha, Hb.
  cbn [SharedSecret TheirPublic MyPublic TheirAddresses MyAddresses].
  assert (deriveSharedSecret a (derivePublicKey b)
          = deriveSharedSecret b (derivePublicKey a)) as Hshared.
  { unfold deriveSharedSecret, derivePublicKey.
    by rewrite !ScalarBaseMult_mul, (Z.mul_comm a b) by lia. }
  rewrite Hshared. split; [done|]. split; [done|].
  rewrite <- !list_fmap_compose. split; apply list_fmap_ext; intros _ i _; cbn.
  - symmetry. apply derivePublicKey_sum; [lia|apply SetBytes_nonneg].
  - done.
Qed.

(** X19. What a returned session guarantees.  The secret it was built
    from is valid, my public key is its public key, and the shared secret
    has 32 bytes; every stealth secret of mine lies in [[0, N)], and its
    public key, which is the one stored with it, has passed the on-curve
    test; and when an address was asked for, their public key has passed
    the on-curve test. *)
Theorem NewStealthSession_guarantees (mySecret : Z) (theirPub : CurvePoint)
    (nonceOffset addressCount : Z) (sess : StealthSession) :
  NewStealthSession mySecret (Some theirPub) nonceOffset addressCount = Val sess ->
  1 <= mySecret < Order /\
  MyPublic sess = derivePublicKey mySecret /\
  length (SharedSecret sess) = 32%nat /\
  Forall (fun psa =>
            0 <= psa_Private psa < Order /\
            psa_Public psa = derivePublicKey (psa_Private psa) /\
            IsOnCurve (psa_Public psa) = true)
    (MyAddresses sess) /\
  (0 < addressCount -> IsOnCurve theirPub = true).
Proof.
  intros Hret. apply NewStealthSession_val in Hret as (Hv & -> & Hall).
  cbn [MyPublic SharedSecret MyAddresses].
  split; [by apply isValidSecretKey_spec|]. split; [done|].
  split; [apply deriveSharedSecret_length|]. split.
  - apply Forall_fmap, Forall_forall. intros i Hi.
    apply elem_of_seq in Hi. destruct (Hall i) as [_ Hp]; [lia|].
    cbn. split; [apply Z.mod_pos_bound, Order_pos|]. by split.
  - intros Hc. apply (Hall 0%nat). lia.
Qed.

End SessionProofs.

(** *** Key generation *)

Section KeyGenProofs.
Context {C : Curve} {H : Sha256}.

Lemma generateKeyPair_val s :
  exists p s',
    generateKeyPair s = Val ((derivePublicKey (tape s (drawn s)), p), s') /\
    heap s !! p = None /\
    heap s' = <[p := tape s (drawn s)]> (heap s) /\
    tape s' = tape s /\ drawn s' = Datatypes.S (drawn s).
Proof.
  destruct (RandomN_val s) as (p & s' & Hr & Hf & Hh & Ht & Hd).
  exists p, s'. split; [|done].
  unfold generateKeyPair.
  mrun (exact Hr).
  mrun (apply load_val; by rewrite Hh, lookup_insert_eq).
  reflexivity.
Qed.


(** The loop of [Generate]: the keys it appends are those of the next
    draws, each secret in a new cell. *)
Lemma Generate_loop (n : nat) :
  forall j r s,
    exists privs s',
      for_loop n j (fun _ => Generate_body) r s
      = Val ({| PubKeys :=
                  PubKeys r
                  ++ map (fun k => derivePublicKey (tape s (drawn s + k)%nat))
                       (seq 0 n);
                PrivKeys := PrivKeys r ++ privs |}, s') /\
      length privs = n /\
      heap s ⊆ heap s' /\
      tape s' = tape s /\
      drawn s' = (drawn s + n)%nat /\
      forall k p, privs !! k = Some p ->
        heap s !! p = None /\
        heap s' !! p = Some (tape s (drawn s + k)%nat).
Proof.
  induction n as [|n IH]; intros j r s.
  - exists [], s. cbn [for_loop seq map]. rewrite !app_nil_r, Nat.add_0_r.
    repeat split; try done. by destruct r.
  - destruct (generateKeyPair_val s) as (p & s1 & Hg & Hf & Hh & Ht & Hd).
    set (r1 := {| PubKeys := PubKeys r ++ [derivePublicKey (tape s (drawn s))];
                  PrivKeys := PrivKeys r ++ [p] |}).
    assert (Generate_body r s = Val (r1, s1)) as Hb.
    { unfold Generate_body. mrun (exact Hg). reflexivity. }
    assert (heap s ⊆ heap s1) as Hsub1
      by (rewrite Hh; by apply insert_subseteq).
    destruct (IH (Datatypes.S j) r1 s1)
      as (privs & s' & Hloop & Hlen & Hsub & Htape & Hdr & Hcells).
    exists (p :: privs), s'.
    rewrite (for_loop_M_step _ _ _ _ _ _ _ Hb), Hloop.
    cbn [PubKeys PrivKeys r1]. rewrite <- !app_assoc. cbn [app seq map].
    rewrite <- fmap_S_seq, <- list_fmap_compose, Nat.add_0_r.
    assert (map (fun k => derivePublicKey (tape s1 (drawn s1 + k)%nat)) (seq 0 n)
            = ((fun k => derivePublicKey (tape s (drawn s + k)%nat))
                 ∘ Datatypes.S) <$> seq 0 n) as ->.
    { apply list_fmap_ext. intros _ k _. cbn.
      rewrite Ht, Hd. do 2 f_equal. lia. }
    split; [done|]. split; [cbn; lia|]. split; [by etrans|].
    split; [congruence|]. split; [lia|].
    intros k q Hk. destruct k as [|k]; cbn in Hk.
    + injection Hk as <-. rewrite Nat.add_0_r. split; [done|].
      eapply lookup_weaken; [|exact Hsub]. by rewrite Hh, lookup_insert_eq.
    + destruct (Hcells k q Hk) as [Hnew Hval]. split.
      * destruct (heap s !! q) as [v|] eqn:Hv; [|done].
        apply (lookup_weaken _ _ _ _ Hv) in Hsub1. congruence.
      * rewrite Hval, Ht, Hd. do 2 f_equal. lia.
Qed.

(** X7. [Generate] never fails.  Called with [n] on a ring, it appends
    [max n 0] keys to each of the two lists and keeps what the lists
    held: the [k]-th new public key is [[d]G] for the [k]-th next draw
    [d] of the random source, and the [k]-th new private key is a cell
    that did not exist before and holds [d].  No existing cell is
    changed, and with [n <= 0] the ring is returned as it was. *)
Theorem Generate_appends (r : Ring) (n : Z) (s : state) :
  (exists privs s',
     Generate r n s
     = Val ({| PubKeys :=
                 PubKeys r
                 ++ map (fun k => derivePublicKey (tape s (drawn s + k)%nat))
                      (seq 0 (Z.to_nat n));
               PrivKeys := PrivKeys r ++ privs |}, s') /\
     length privs = Z.to_nat n /\
     heap s ⊆ heap s' /\
     tape s' = tape s /\
     drawn s' = (drawn s + Z.to_nat n)%nat /\
     forall k p, privs !! k = Some p ->
       heap s !! p = None /\
       heap s' !! p = Some (tape s (drawn s + k)%nat)) /\
  (n <= 0 -> Generate r n s = Val (r, s)).
Proof.
  split; [apply Generate_loop|].
  intros Hn. unfold Generate. by replace (Z.to_nat n) with 0%nat by lia.
Qed.

(** [Generate] keeps the pairing of a ring whose two lists are equally
    long. *)
Lemma Generate_owns (r : Ring) (n : Z) (s : state) :
  length (PubKeys r) = length (PrivKeys r) ->
  owns_keys (heap s) r ->
  (forall k, 1 <= tape s k < Order) ->
  exists r' s',
    Generate r n s = Val (r', s') /\
    owns_keys (heap s') r' /\
    length (PubKeys r') = length (PrivKeys r') /\
    length (PrivKeys r') = (length (PrivKeys r) + Z.to_nat n)%nat /\
    heap s ⊆ heap s' /\
    tape s' = tape s.
Proof.
  intros Hlen Hown Hdraws.
  destruct (Generate_loop (Z.to_nat n) 0 r s)
    as (privs & s' & Hgen & Hl & Hsub & Htape & _ & Hcells).
  eexists _, s'. split; [exact Hgen|].
  cbn [PubKeys PrivKeys]. rewrite !length_app, length_map, length_seq.
  split; [|repeat split; try done; lia].
  intros i priv Hi. cbn [PubKeys PrivKeys] in *.
  apply lookup_app_Some in Hi as [Hi|[Hge Hi]].
  - destruct (Hown i priv Hi) as (x & Hx & Hxr & Hpub).
    exists x. split; [by eapply lookup_weaken|]. split; [done|].
    by apply lookup_app_l_Some.
  - destruct (Hcells _ _ Hi) as [_ Hval].
    apply lookup_lt_Some in Hi as Hlt.
    eexists. split; [exact Hval|]. split; [apply Hdraws|].
    rewrite lookup_app_r by lia. rewrite Hlen.
    by rewrite list_lookup_fmap, lookup_seq_lt by lia.
Qed.

(** X9. [Generate] keeps a ring signable.  On a ring with as many
    public as private keys, each private key a valid secret with its
    public key at the same index, and with draws in [[1, N)], the ring
    after [Generate] has the same property, with [max n 0] more pairs;
    no existing cell is changed. *)
Theorem Generate_keeps_pairs (r : Ring) (n : Z) (s : state) :
  length (PubKeys r) = length (PrivKeys r) ->
  owns_keys (heap s) r ->
  (forall k, 1 <= tape s k < Order) ->
  exists r' s',
    Generate r n s = Val (r', s') /\
    owns_keys (heap s') r' /\
    length (PubKeys r') = length (PrivKeys r') /\
    length (PrivKeys r') = (length (PrivKeys r) + Z.to_nat n)%nat /\
    heap s ⊆ heap s' /\
    tape s' = tape s.
Proof. apply Generate_owns. Qed.

End KeyGenProofs.

(** *** Lookup of a member's key *)

Section LookupProofs.
Context {C : Curve} {H : Sha256}.

Lemma PubKeyIndex_member (r : Ring) (i : nat) (pk : CurvePoint) :
  PubKeys r !! i = Some pk ->
  0 <= PubKeyIndex r pk <= Z.of_nat i /\
  PubKeys r !! Z.to_nat (PubKeyIndex r pk) = Some pk.
Proof.
  intros Hi.
  destruct (PubKeyIndex_from_spec (PubKeys r) pk 0) as [Hnone Hsome]; [lia|].
  fold (PubKeyIndex r pk) in Hnone, Hsome.
  assert (PubKeyIndex r pk <> -1) as Hfound.
  { rewrite Hnone. intros Hn. apply Hn. by eapply list_elem_of_lookup_2. }
  destruct (Hsome Hfound) as (Hle & Hat & Hmin).
  rewrite Z.sub_0_r in Hat, Hmin. split; [|done]. split; [done|].
  destruct (decide (PubKeyIndex r pk <= Z.of_nat i)) as [|Hgt]; [done|].
  destruct (Hmin i); [lia|done].
Qed.

(** X16. Looking up a member's own key.  For the key at index [i] of
    the ring, [PubKeyIndex] returns an index that is at most [i] and
    holds the same key; when no key occurs twice in the ring it
    returns [i]. *)
Theorem PubKeyIndex_of_member (r : Ring) (i : nat) (pk : CurvePoint) :
  PubKeys r !! i = Some pk ->
  0 <= PubKeyIndex r pk <= Z.of_nat i /\
  PubKeys r !! Z.to_nat (PubKeyIndex r pk) = Some pk /\
  (NoDup (PubKeys r) -> PubKeyIndex r pk = Z.of_nat i).
Proof.
  intros Hi. destruct (PubKeyIndex_member r i pk Hi) as [Hle Hat].
  split; [done|]. split; [done|]. intros Hnd.
  pose proof (NoDup_lookup _ _ _ _ Hnd Hi Hat). lia.
Qed.

(** X22. The hash of a ring grows with the ring.  [PublicKeysHashed]
    reads the public keys only, and for a ring whose public keys extend
    those of another ring it continues the chain from the hash of the
    shorter ring: each further key [pk] turns [h] into
    [SHA-256(h || marshal(pk))]. *)
Theorem PublicKeysHashed_app (r r' : Ring) (more : list CurvePoint)
    (h : list byte) :
  PubKeys r' = PubKeys r ++ more ->
  PublicKeysHashed r = Val h ->
  PublicKeysHashed r'
  = Val (fold_left (fun h pk => Sum256 (h ++ Marshal pk)) more h).
Proof.
  intros Hext Hh.
  pose proof (PublicKeysHashed_loop [] (PubKeys r) zero32) as Hr.
  pose proof (PublicKeysHashed_loop [] (PubKeys r') zero32) as Hr'.
  change (PublicKeysHashed r = Val (fold_left (fun h pk => Sum256 (h ++ Marshal pk))
                                      (PubKeys r) zero32)) in Hr.
  change (PublicKeysHashed r' = Val (fold_left (fun h pk => Sum256 (h ++ Marshal pk))
                                       (PubKeys r') zero32)) in Hr'.
  rewrite Hr in Hh. injection Hh as <-.
  by rewrite Hr', Hext, fold_left_app.
Qed.

End LookupProofs.

(** *** Signatures whose entries are residues *)

Section ReducedProofs.
Context {C : Curve} {H : Sha256}.

Lemma final_pairs_in_range signer tp cS tS (rest : list CurvePoint) :
  (forall k, 1 <= tp k < Order) ->
  0 <= cS < Order ->
  0 <= tS < Order ->
  forall j d,
    Forall in_range (map (final_pair cS tS) (sign_trace signer tp j d rest)).
Proof.
  intros Hd Hc Ht. induction rest as [|pk rest IH]; intros j d;
    cbn [sign_trace]; [constructor|].
  case_decide; cbn [map final_pair]; constructor; try apply IH.
  - pose proof (Hd d). pose proof (Hd (Datatypes.S d)). split; cbn; lia.
  - by split.
Qed.

Lemma reduce_cells_id (ps : list positive) (h : gmap positive Z) :
  Forall (fun p => exists v, h !! p = Some v /\ 0 <= v < Order) ps ->
  reduce_cells ps h = h.
Proof.
  intros Hall. apply map_eq. intros p. rewrite lookup_reduce_cells.
  case_decide as Hin; [|done].
  rewrite Forall_forall in Hall. destruct (Hall p Hin) as (v & -> & Hv).
  cbn. by rewrite Z.mod_small.
Qed.

Lemma flat_vals_cells (h : gmap positive Z) ps cts :
  flat_vals h ps cts ->
  Forall in_range cts ->
  Forall (fun p => exists v, h !! p = Some v /\ 0 <= v < Order)
    (take (2 * length cts) ps).
Proof.
  induction 1 as [|cj tj ps c t cts Hc Ht _ IH]; intros Hr; [constructor|].
  apply Forall_cons in Hr as [[Hc1 Ht1] Hr].
  cbn [length]. rewrite take_two_more. repeat constructor; eauto.
Qed.

Lemma set_heap_same (s : state) : set_heap (heap s) s = s.
Proof. by destruct s. Qed.

(** [VerifySignature] on cells that hold residues changes nothing. *)
Lemma VerifySignature_reduced r message sigma s cts :
  length cts = length (PubKeys r) ->
  flat_vals (heap s) (Ctlist sigma) cts ->
  Forall in_range cts ->
  VerifySignature r message sigma s
  = Val (verdict r message (Tau sigma) cts, s).
Proof.
  intros Hl Hf Hr. rewrite (VerifySignature_val _ _ _ _ cts) by done.
  rewrite reduce_cells_id, set_heap_same; [done|].
  rewrite <- Hl. by apply flat_vals_cells.
Qed.

Lemma accepted_weaken (h h' : gmap positive Z) r message sigma :
  h ⊆ h' -> accepted h r message sigma -> accepted h' r message sigma.
Proof.
  intros Hsub (cts & Hl & Hf & Hr & Hv). exists cts.
  repeat split; try done. by eapply flat_vals_weaken.
Qed.

Lemma accepted_verifies r message sigma s :
  accepted (heap s) r message sigma ->
  VerifySignature r message sigma s = Val (true, s).
Proof.
  intros (cts & Hl & Hf & Hr & Hv).
  by rewrite (VerifySignature_reduced _ _ _ _ cts), Hv.
Qed.

(** X13. What [Signature] hands out is reduced.  With draws in
    [[1, N)], every entry of the [ct] list of the signature it returns
    is a cell holding a value in [[0, N)], there are [2n] of them, and
    [VerifySignature] on that signature returns a boolean and leaves
    every cell as it was. *)
Theorem Signature_entries_reduced (r : Ring) (pk : positive) (x : Z)
    (message : list byte) (signer : Z) (s : state) :
  heap s !! pk = Some x ->
  0 <= signer < Z.of_nat (length (PubKeys r)) ->
  (forall k, 1 <= tape s k < Order) ->
  exists sigma s1 b,
    Signature r pk message signer s = Val (sigma, s1) /\
    length (Ctlist sigma) = (2 * length (PubKeys r))%nat /\
    Forall (fun p => exists v, heap s1 !! p = Some v /\ 0 <= v < Order)
      (Ctlist sigma) /\
    VerifySignature r message sigma s1 = Val (b, s1).
Proof.
  intros Hpk Hin Hdraws.
  pose proof Order_pos as HN.
  destruct (Signature_val r pk message signer s x Hpk Hin)
    as (rv & _ & sigma & s1 & Hsig & _ & Hlen & Hflat & _ & _).
  set (tr := sign_trace signer (tape s) 0 (drawn s) (PubKeys r)) in *.
  set (cts := map _ tr) in Hflat.
  assert (length cts = length (PubKeys r)) as Hl
    by (unfold cts; rewrite length_map; apply sign_trace_length).
  assert (Forall in_range cts) as Hr
    by (apply final_pairs_in_range; [done|by apply Z.mod_pos_bound..]).
  exists sigma, s1, (verdict r message (Tau sigma) cts).
  split; [done|]. split; [done|]. split.
  - rewrite <- (take_ge (Ctlist sigma) (2 * length cts)) by lia.
    by apply flat_vals_cells.
  - by apply VerifySignature_reduced.
Qed.

Lemma verify_fold_residues hashp tau cts cts' :
  Forall2 same_residues cts cts' ->
  forall pubs v,
    verify_fold hashp tau pubs cts v = verify_fold hashp tau pubs cts' v.
Proof.
  induction 1 as [|[c t] [c' t'] cts cts' [Hc Ht] _ IH]; intros pubs v; [done|].
  destruct pubs as [|pk pubs]; [done|].
  unfold verify_fold in *. cbn [zip_with fold_left].
  cbn [fst snd] in Hc, Ht.
  rewrite (verify_step_residue hashp tau v pk c' t' c t Hc Ht). apply IH.
Qed.

Lemma verdict_residues r message tau cts cts' :
  Forall2 same_residues cts cts' ->
  verdict r message tau cts = verdict r message tau cts'.
Proof.
  intros HF. unfold verdict. by rewrite (verify_fold_residues _ _ _ _ HF).
Qed.

(** After the cells [qs], which include those of the pairs, have been
    reduced, the pairs are their residues. *)
Lemma flat_vals_reduced (h : gmap positive Z) ps cts :
  flat_vals h ps cts ->
  forall qs,
    (forall p, p ∈ take (2 * length cts) ps -> p ∈ qs) ->
    flat_vals (reduce_cells qs h) ps (map residues cts).
Proof.
  induction 1 as [|cj tj ps c t cts Hc Ht _ IH]; intros qs Hin; [constructor|].
  cbn [length] in Hin. rewrite take_two_more in Hin.
  cbn [map]. constructor.
  - rewrite lookup_reduce_cells, decide_True, Hc; [done|].
    apply Hin. set_solver.
  - rewrite lookup_reduce_cells, decide_True, Ht; [done|].
    apply Hin. set_solver.
  - apply IH. intros p Hp. apply Hin. set_solver.
Qed.

Lemma residues_same (cts : list (Z * Z)) :
  Forall2 same_residues cts (map residues cts) /\
  Forall in_range (map residues cts).
Proof.
  pose proof Order_pos as HN.
  induction cts as [|[c t] cts [IH1 IH2]]; [by split; constructor|].
  split; constructor; try done.
  - split; cbn; by rewrite Z.mod_mod by lia.
  - split; cbn; by apply Z.mod_pos_bound.
Qed.

(** X14. Verifying again gives the same answer.  When the [ct] list has
    at least [2n] entries, the first [2n] not nil, [VerifySignature]
    returns a boolean, and a second call on the same signature, in the
    state the first call has left, returns the same boolean and changes
    nothing any more. *)
Theorem VerifySignature_twice (r : Ring) (message : list byte)
    (sigma : RingSignature) (s : state) :
  (2 * length (PubKeys r) <= length (Ctlist sigma))%nat ->
  Forall (fun p => is_Some (heap s !! p))
    (take (2 * length (PubKeys r)) (Ctlist sigma)) ->
  exists b s',
    VerifySignature r message sigma s = Val (b, s') /\
    VerifySignature r message sigma s' = Val (b, s').
Proof.
  intros Hlen Hall.
  destruct (flat_vals_exists (heap s) _ (Ctlist sigma) Hlen Hall)
    as (cts & Hl & Hflat).
  destruct (residues_same cts) as [Hsame Hrange].
  eexists _, _. split; [by apply (VerifySignature_val _ _ _ _ cts)|].
  rewrite (VerifySignature_reduced _ _ _ _ (map residues cts)).
  - by rewrite (verdict_residues _ _ _ _ _ Hsame).
  - by rewrite length_map.
  - cbn [heap set_heap]. apply flat_vals_reduced; [done|].
    by rewrite Hl.
  - done.
Qed.

(** X15. The verdict depends on the entries modulo [N] only.  Two
    signatures with the same [tau] whose first [2n] entries hold, pair by
    pair, values with the same residues get the same verdict: adding a
    multiple of [N] to an entry of an accepted signature gives another
    accepted signature. *)
Theorem VerifySignature_residues (r : Ring) (message : list byte)
    (sigma sigma' : RingSignature) (s s' : state) (cts cts' : list (Z * Z)) :
  length cts = length (PubKeys r) ->
  flat_vals (heap s) (Ctlist sigma) cts ->
  flat_vals (heap s') (Ctlist sigma') cts' ->
  Tau sigma' = Tau sigma ->
  Forall2 same_residues cts cts' ->
  value (VerifySignature r message sigma' s')
  = value (VerifySignature r message sigma s).
Proof.
  intros Hl Hf Hf' Htau Hsame.
  apply Forall2_length in Hsame as Hl'.
  rewrite (VerifySignature_val r message sigma s cts) by done.
  rewrite (VerifySignature_val r message sigma' s' cts') by (done || congruence).
  cbn. by rewrite Htau, (verdict_residues _ _ _ _ _ Hsame).
Qed.

(** A signer index out of range: [ri] stays nil and the call panics. *)
Lemma Signature_out_of_range r pk message signer s x :
  heap s !! pk = Some x ->
  ~ 0 <= signer < Z.of_nat (length (PubKeys r)) ->
  Signature r pk message signer s = Panic.
Proof.
  intros Hpk Hout.
  set (s0 := set_heap (alter (fun v => v mod Order) pk (heap s)) s).
  assert (heap s0 !! pk = Some (x mod Order)) as Hpk0
    by (cbn; by rewrite lookup_alter, decide_True, Hpk).
  set (hashp := NewCurvePointFromHash (copy32 message)) in *.
  set (hashSP := ScalarMult hashp (x mod Order)) in *.
  destruct (Signature_loop r hashp hashSP signer (PubKeys r) []
              {| ctlist := []; ri := None; csum := 0;
                 hashAcc := Sum256 (take 32 (Marshal hashp) ++ Marshal hashSP) |}
              s0 eq_refl)
    as (locs & rp & s1 & Hloop & Hsub1 & _ & _ & _ & Hown).
  assert (own_r (sign_trace signer (tape s0) 0 (drawn s0) (PubKeys r)) = None)
    as Hnone.
  { destruct (decide (signer < 0)).
    - by apply sign_trace_after.
    - apply sign_trace_before. cbn. lia. }
  cbn [length] in Hown. rewrite Hnone in Hown. cbn in Hown. subst rp.
  unfold Signature.
  mrun (by eapply Mod_in_place_val). fold s0.
  mrun (by apply load_val).
  fold hashp hashSP.
  mrun (exact Hloop).
  cbn [ctlist ri csum hashAcc].
  match goal with
  | |- context [alloc ?v] =>
      destruct (alloc_val v s1) as (c & s2 & Hc & Hcf & Hh2 & _)
  end.
  mrun (exact Hc).
  mrun (apply load_val; by rewrite Hh2, lookup_insert_eq).
  mrun (apply load_val; rewrite Hh2, lookup_insert_ne;
        [by eapply lookup_weaken|intros ->;
         eapply lookup_weaken in Hpk0; [|exact Hsub1]; congruence]).
  by rewrite bind_M_panic.
Qed.

(** X12. When [Signature] returns.  It panics exactly when the secret
    [pk] is nil or the signer index is outside [[0, n)] (which includes
    every call on an empty ring); otherwise it returns a signature.  It
    never returns an error. *)
Theorem Signature_panics_iff (r : Ring) (pk : positive)
    (message : list byte) (signer : Z) (s : state) :
  (Signature r pk message signer s = Panic
   <-> heap s !! pk = None \/ ~ 0 <= signer < Z.of_nat (length (PubKeys r))) /\
  (forall e, Signature r pk message signer s <> Err e).
Proof.
  destruct (heap s !! pk) as [x|] eqn:Hpk.
  - destruct (decide (0 <= signer < Z.of_nat (length (PubKeys r)))) as [Hin|Hout].
    + destruct (Signature_val r pk message signer s x Hpk Hin)
        as (_ & _ & sigma & s' & -> & _).
      split; [|done]. split; [done|]. by intros [|].
    + rewrite (Signature_out_of_range _ _ _ _ _ x) by done.
      split; [|done]. split; [by right|done].
  - assert (Signature r pk message signer s = Panic) as ->.
    { apply bind_M_panic. by apply Mod_in_place_nil. }
    split; [|done]. split; [by left|done].
Qed.

Lemma copy32_app (message extra : list byte) :
  (32 <= length message)%nat \/ Forall (fun b => b = x00) extra ->
  copy32 (message ++ extra) = copy32 message.
Proof.
  unfold copy32. intros [Hlong|Hzero].
  - rewrite take_app_le, length_app by done.
    by replace (32 - (length message + length extra))%nat
      with (32 - length message)%nat by lia.
  - assert (extra = replicate (length extra) x00) as ->.
    { induction Hzero as [|b extra -> _ IH]; [done|]. cbn. by f_equal. }
    rewrite length_app, length_replicate.
    destruct (decide (32 <= length message)%nat) as [Hlong|Hshort].
    + rewrite take_app_le by done.
      by replace (32 - (length message + length extra))%nat
        with (32 - length message)%nat by lia.
    + rewrite take_app_ge, take_replicate, (take_ge message) by lia.
      rewrite <- app_assoc, <- replicate_add. do 2 f_equal. lia.
Qed.

(** X18. Only the first 32 bytes of a message count, for the verifier
    as for the signer.  Bytes appended to a message of at least 32
    bytes, and zero bytes appended to any message, change neither what
    [Signature] does nor what [VerifySignature] answers: a signature that
    is accepted for a message is accepted for the longer one. *)
Theorem first_32_bytes_count (r : Ring) (pk : positive)
    (message extra : list byte) (signer : Z) (sigma : RingSignature)
    (s : state) :
  (32 <= length message)%nat \/ Forall (fun b => b = x00) extra ->
  VerifySignature r (message ++ extra) sigma s
    = VerifySignature r message sigma s /\
  Signature r pk (message ++ extra) signer s
    = Signature r pk message signer s.
Proof.
  intros Hextra. unfold VerifySignature, Signature.
  by rewrite (copy32_app _ _ Hextra).
Qed.

Lemma draws_used_cons (e : draw) (tr : list draw) :
  draws_used (e :: tr)
  = (match e with Decoy _ _ => 2 | Own _ => 1 end + draws_used tr)%nat.
Proof. reflexivity. Qed.

(** The loop of [Signature] uses the draws its trace counts. *)
Lemma Signature_loop_drawn r hashp hashSP signer (rest : list CurvePoint) :
  forall pre v s v' s',
    PubKeys r = pre ++ rest ->
    for_loop (length rest) (length pre)
      (Signature_body r hashp hashSP signer) v s = Val (v', s') ->
    drawn s'
    = (drawn s
       + draws_used (sign_trace signer (tape s) (length pre) (drawn s) rest))%nat.
Proof.
  induction rest as [|pk rest IH]; intros pre v s v' s' Hr Hloop.
  - cbn in Hloop. injection Hloop as _ <-. cbn. lia.
  - assert (PubKeys r !! length pre = Some pk) as Hpk
      by (rewrite Hr; by apply list_lookup_middle).
    assert (PubKeys r = (pre ++ [pk]) ++ rest) as Hr'
      by (by rewrite <- app_assoc).
    assert (length (pre ++ [pk]) = Datatypes.S (length pre)) as Hlen
      by (rewrite length_app; cbn; lia).
    cbn [sign_trace length] in *.
    destruct (decide (Z.of_nat (length pre) ≠ signer)) as [Hne|Heq].
    + destruct (Signature_body_decoy r hashp hashSP signer _ v s pk Hne Hpk)
        as (cj & tj & s1 & Hb & _ & _ & _ & Htape & Hd).
      rewrite (for_loop_M_step _ _ _ _ _ _ _ Hb), <- Hlen in Hloop.
      apply IH in Hloop; [|done].
      rewrite Hloop, Hlen, Htape, Hd, draws_used_cons. lia.
    + assert (Z.of_nat (length pre) = signer) as Hs
        by (destruct (decide (Z.of_nat (length pre) = signer)); [done|by destruct Heq]).
      destruct (Signature_body_own r hashp hashSP signer _ v s pk Hs)
        as (dm & rp0 & s1 & Hb & _ & _ & _ & Htape & Hd).
      rewrite (for_loop_M_step _ _ _ _ _ _ _ Hb), <- Hlen in Hloop.
      apply IH in Hloop; [|done].
      rewrite Hloop, Hlen, Htape, Hd, draws_used_cons. lia.
Qed.

Lemma draws_used_after signer tp (rest : list CurvePoint) :
  forall j d,
    signer < Z.of_nat j ->
    draws_used (sign_trace signer tp j d rest) = (2 * length rest)%nat.
Proof.
  induction rest as [|pk rest IH]; intros j d Hj; [done|].
  cbn [sign_trace]. rewrite decide_True by lia.
  rewrite draws_used_cons, IH by lia. cbn [length]. lia.
Qed.

Lemma draws_used_at signer tp (rest : list CurvePoint) :
  forall j d,
    Z.of_nat j <= signer < Z.of_nat (j + length rest) ->
    draws_used (sign_trace signer tp j d rest) = (2 * length rest - 1)%nat.
Proof.
  induction rest as [|pk rest IH]; intros j d Hj; [cbn in Hj; lia|].
  cbn [sign_trace length] in *.
  destruct (decide (Z.of_nat j ≠ signer)) as [Hne|Heq];
    rewrite draws_used_cons.
  - rewrite IH by lia. destruct rest; [cbn in Hj; lia|cbn [length]; lia].
  - rewrite draws_used_after by lia. lia.
Qed.

(** X20. [Signature] takes [2n - 1] values from the random source, two
    for each of the other members and one for the signer, and leaves
    the values still to come as they were. *)
Theorem Signature_draws (r : Ring) (pk : positive) (x : Z)
    (message : list byte) (signer : Z) (s : state)
    (sigma : RingSignature) (s' : state) :
  heap s !! pk = Some x ->
  Signature r pk message signer s = Val (sigma, s') ->
  drawn s' = (drawn s + (2 * length (PubKeys r) - 1))%nat /\
  tape s' = tape s.
Proof.
  intros Hpk Hsig.
  pose proof (Signature_produces _ _ _ _ _ _ _ _ Hpk Hsig) as Hin.
  destruct (Signature_val r pk message signer s x Hpk Hin)
    as (_ & _ & sg & t & Hv & _ & _ & _ & _ & Htape).
  rewrite Hsig in Hv. injection Hv as <- <-. split; [|done].
  set (s0 := set_heap (alter (fun v => v mod Order) pk (heap s)) s).
  assert (heap s0 !! pk = Some (x mod Order)) as Hpk0
    by (cbn; by rewrite lookup_alter, decide_True, Hpk).
  set (hashp := NewCurvePointFromHash (copy32 message)) in *.
  set (hashSP := ScalarMult hashp (x mod Order)) in *.
  destruct (Signature_loop r hashp hashSP signer (PubKeys r) []
              {| ctlist := []; ri := None; csum := 0;
                 hashAcc := Sum256 (take 32 (Marshal hashp) ++ Marshal hashSP) |}
              s0 eq_refl)
    as (locs & rp & s1 & Hloop & Hsub1 & _ & Hlocs & _ & Hown).
  pose proof (Signature_loop_drawn _ _ _ _ _ [] _ _ _ _ eq_refl Hloop) as Hd1.
  rewrite draws_used_at in Hd1 by (cbn; lia).
  destruct (sign_trace_at signer (tape s0) (PubKeys r) 0 (drawn s0))
    as [[rv Hrv] _]; [cbn; lia|].
  cbn [length] in Hown. rewrite Hrv in Hown. destruct Hown as (rcell & -> & Hrcell).
  revert Hsig. unfold Signature.
  mrun (by eapply Mod_in_place_val). fold s0.
  mrun (by apply load_val).
  fold hashp hashSP.
  mrun (exact Hloop).
  cbn [ctlist ri csum hashAcc].
  match goal with
  | |- context [alloc ?v] =>
      destruct (alloc_val v s1) as (c & s2 & Hc & Hcf & Hh2 & _ & Hd2)
  end.
  assert (heap s1 ⊆ heap s2) as Hsub2
    by (rewrite Hh2; by apply insert_subseteq).
  mrun (exact Hc).
  mrun (apply load_val; by rewrite Hh2, lookup_insert_eq).
  mrun (apply load_val; eauto using lookup_weaken).
  mrun (mrun (by apply load_val; eauto using lookup_weaken); reflexivity).
  mrun (apply assign_val; cbn [app]; lia).
  mrun (apply assign_val; rewrite length_insert; cbn [app]; lia).
  intros [= _ <-]. cbn [drawn s0 set_heap] in *. lia.
Qed.

End ReducedProofs.

(** *** The cells of a signature *)

Section CellsProofs.
Context {C : Curve} {H : Sha256}.

(** The two cells an iteration of [Signature] appends are new; they are
    one cell only in the signer's iteration. *)
Lemma Signature_body_cells r hashp hashSP signer j v s pk :
  PubKeys r !! j = Some pk ->
  exists a b v1 s1,
    Signature_body r hashp hashSP signer j v s = Val (v1, s1) /\
    ctlist v1 = ctlist v ++ [a; b] /\
    heap s ⊆ heap s1 /\
    heap s !! a = None /\
    heap s !! b = None /\
    is_Some (heap s1 !! a) /\
    is_Some (heap s1 !! b) /\
    (a = b -> Z.of_nat j = signer).
Proof.
  intros Hpk. unfold Signature_body.
  destruct (decide (Z.of_nat j ≠ signer)) as [Hne|Heq].
  - destruct (RandomN_val s) as (cj & s1 & Hr1 & Hf1 & Hh1 & Ht1 & Hd1).
    destruct (RandomN_val s1) as (tj & s2 & Hr2 & Hf2 & Hh2 & Ht2 & Hd2).
    assert (cj <> tj) as Hct
      by (intros ->; by rewrite Hh1, lookup_insert_eq in Hf2).
    assert (heap s2 !! cj = Some (tape s (drawn s))) as Hc
      by (by rewrite Hh2, lookup_insert_ne, Hh1, lookup_insert_eq by done).
    assert (heap s2 !! tj = Some (tape s1 (drawn s1))) as Ht
      by (by rewrite Hh2, lookup_insert_eq).
    eexists cj, tj, _, s2. split; [|repeat split].
    + mrun (mrun (exact Hr1); mrun (exact Hr2); mrun (by apply lift_index_val);
            mrun (by apply load_val); mrun (by apply load_val); reflexivity).
      reflexivity.
    + done.
    + rewrite Hh2, Hh1.
      etrans; [apply (insert_subseteq _ cj); done|].
      apply insert_subseteq. by rewrite <- Hh1.
    + done.
    + rewrite Hh1, lookup_insert_ne in Hf2; done.
    + by eexists.
    + by eexists.
    + done.
  - assert (Z.of_nat j = signer) as Hs
      by (destruct (decide (Z.of_nat j = signer)); [done|by destruct Heq]).
    destruct (alloc_val 0 s) as (dummy & s1 & Hr1 & Hf1 & Hh1 & Ht1 & Hd1).
    destruct (RandomN_val s1) as (rp & s2 & Hr2 & Hf2 & Hh2 & Ht2 & Hd2).
    assert (dummy <> rp) as Hdr
      by (intros ->; by rewrite Hh1, lookup_insert_eq in Hf2).
    assert (heap s2 !! dummy = Some 0) as Hc
      by (by rewrite Hh2, lookup_insert_ne, Hh1, lookup_insert_eq by done).
    assert (heap s2 !! rp = Some (tape s1 (drawn s1))) as Ht
      by (by rewrite Hh2, lookup_insert_eq).
    eexists dummy, dummy, _, s2. split; [|repeat split].
    + mrun (mrun (exact Hr1); mrun (exact Hr2); mrun (by apply load_val);
            reflexivity).
      reflexivity.
    + done.
    + rewrite Hh2, Hh1.
      etrans; [apply (insert_subseteq _ dummy); done|].
      apply insert_subseteq. by rewrite <- Hh1.
    + done.
    + done.
    + by eexists.
    + by eexists.
    + done.
Qed.

(** The cells the loop of [Signature] appends are new, and two
    positions hold the same cell only if they are the signer's pair. *)
Lemma Signature_loop_cells r hashp hashSP signer (rest : list CurvePoint) :
  forall pre v s,
    PubKeys r = pre ++ rest ->
    exists locs v' s',
      for_loop (length rest) (length pre)
        (Signature_body r hashp hashSP signer) v s = Val (v', s') /\
      ctlist v' = ctlist v ++ locs /\
      heap s ⊆ heap s' /\
      Forall (fun p => heap s !! p = None /\ is_Some (heap s' !! p)) locs /\
      forall i j p,
        (i < j)%nat -> locs !! i = Some p -> locs !! j = Some p ->
        Z.of_nat (length pre) <= signer /\
        i = (2 * (Z.to_nat signer - length pre))%nat /\
        j = Datatypes.S i.
Proof.
  induction rest as [|pk rest IH]; intros pre v s Hr.
  - exists [], v, s. cbn. rewrite app_nil_r. repeat split; done.
  - assert (PubKeys r !! length pre = Some pk) as Hpk
      by (rewrite Hr; by apply list_lookup_middle).
    assert (PubKeys r = (pre ++ [pk]) ++ rest) as Hr'
      by (by rewrite <- app_assoc).
    assert (length (pre ++ [pk]) = Datatypes.S (length pre)) as Hlen
      by (rewrite length_app; cbn; lia).
    destruct (Signature_body_cells r hashp hashSP signer (length pre) v s pk Hpk)
      as (a & b & v1 & s1 & Hb & Hct & Hsub & Hfa & Hfb & Hsa & Hsb & Hab).
    destruct (IH (pre ++ [pk]) v1 s1 Hr')
      as (locs & v' & s' & Hloop & Hct' & Hsub' & Hall & Hpair).
    rewrite Hlen in *.
    exists (a :: b :: locs), v', s'.
    cbn [length]. rewrite (for_loop_M_step _ _ _ _ _ _ _ Hb), Hloop.
    split; [done|]. split; [by rewrite Hct', Hct, <- app_assoc|].
    split; [by etrans|]. split.
    + repeat apply Forall_cons_2.
      * split; [done|]. destruct Hsa as [y Hy]. exists y. by eapply lookup_weaken.
      * split; [done|]. destruct Hsb as [y Hy]. exists y. by eapply lookup_weaken.
      * eapply Forall_impl; [exact Hall|]. intros p [Hn Hs]. split; [|done].
        destruct (heap s !! p) as [y|] eqn:Hp; [|done].
        apply (lookup_weaken _ _ _ _ Hp) in Hsub. congruence.
    + intros i j p Hij Hi Hj.
      assert (forall k, locs !! k = Some p -> p <> a /\ p <> b) as Hnew.
      { intros k Hk. rewrite Forall_forall in Hall.
        destruct (Hall p) as [Hn _]; [by eapply list_elem_of_lookup_2|].
        split; intros ->; [destruct Hsa as [? Hy]|destruct Hsb as [? Hy]];
          congruence. }
      destruct i as [|[|i]]; destruct j as [|[|j]]; cbn in Hi, Hj; try lia.
      * injection Hi as <-. injection Hj as Hba.
        specialize (Hab (eq_sym Hba)). lia.
      * injection Hi as <-. by destruct (Hnew j Hj).
      * injection Hi as <-. by destruct (Hnew j Hj).
      * destruct (Hpair i j p) as (H1 & H2 & H3); [lia|done|done|]. lia.
Qed.

(** X21. A signature shares no cell with its caller.  Every entry of
    the [ct] list that [Signature] returns is a cell that did not exist
    when it was called (so none is the secret [pk]), and no cell occurs
    twice in the list: the zero cell that the loop puts at both of the
    signer's positions is replaced at both. *)
Theorem Signature_cells_new (r : Ring) (pk : positive) (x : Z)
    (message : list byte) (signer : Z) (s : state)
    (sigma : RingSignature) (s' : state) :
  heap s !! pk = Some x ->
  Signature r pk message signer s = Val (sigma, s') ->
  NoDup (Ctlist sigma) /\
  Forall (fun p => heap s !! p = None /\ is_Some (heap s' !! p)) (Ctlist sigma) /\
  pk ∉ Ctlist sigma.
Proof.
  intros Hpk Hsig.
  pose proof (Signature_produces _ _ _ _ _ _ _ _ Hpk Hsig) as Hin.
  assert (forall l : list positive,
            Forall (fun p => heap s !! p = None /\ is_Some (heap s' !! p)) l ->
            pk ∉ l) as Hnot.
  { intros l Hl Hel. rewrite Forall_forall in Hl.
    destruct (Hl pk Hel) as [Hn _]. congruence. }
  cut (NoDup (Ctlist sigma) /\
       Forall (fun p => heap s !! p = None /\ is_Some (heap s' !! p))
         (Ctlist sigma)).
  { intros [Hnd Hall]. split; [done|]. split; [done|]. by apply Hnot. }
  clear Hnot.
  set (s0 := set_heap (alter (fun v => v mod Order) pk (heap s)) s).
  assert (heap s0 !! pk = Some (x mod Order)) as Hpk0
    by (cbn; by rewrite lookup_alter, decide_True, Hpk).
  set (hashp := NewCurvePointFromHash (copy32 message)) in *.
  set (hashSP := ScalarMult hashp (x mod Order)) in *.
  destruct (Signature_loop r hashp hashSP signer (PubKeys r) []
              {| ctlist := []; ri := None; csum := 0;
                 hashAcc := Sum256 (take 32 (Marshal hashp) ++ Marshal hashSP) |}
              s0 eq_refl)
    as (locs & rp & s1 & Hloop & Hsub1 & _ & Hlocs & _ & Hown).
  destruct (Signature_loop_cells r hashp hashSP signer (PubKeys r) []
              {| ctlist := []; ri := None; csum := 0;
                 hashAcc := Sum256 (take 32 (Marshal hashp) ++ Marshal hashSP) |}
              s0 eq_refl)
    as (locs' & v' & s1' & Hloop' & Hct & _ & Hnew & Hpair).
  rewrite Hloop in Hloop'. injection Hloop' as <- <-.
  cbn [ctlist app length] in Hct, Hpair. subst locs'.
  destruct (sign_trace_at signer (tape s0) (PubKeys r) 0 (drawn s0))
    as [[rv Hrv] _]; [cbn; lia|].
  cbn [length] in Hown. rewrite Hrv in Hown. destruct Hown as (rcell & -> & Hrcell).
  revert Hsig. unfold Signature.
  mrun (by eapply Mod_in_place_val). fold s0.
  mrun (by apply load_val).
  fold hashp hashSP.
  mrun (exact Hloop).
  cbn [ctlist ri csum hashAcc app].
  match goal with
  | |- context [alloc ?v] =>
      destruct (alloc_val v s1) as (c & s2 & Hc & Hcf & Hh2 & _)
  end.
  assert (heap s1 ⊆ heap s2) as Hsub2
    by (rewrite Hh2; by apply insert_subseteq).
  assert (is_Some (heap s2 !! c)) as Hcs
    by (rewrite Hh2, lookup_insert_eq; by eexists).
  mrun (exact Hc).
  mrun (apply load_val; by rewrite Hh2, lookup_insert_eq).
  mrun (apply load_val; eauto using lookup_weaken).
  mrun (mrun (by apply load_val; eauto using lookup_weaken); reflexivity).
  mrun (apply assign_val; lia).
  mrun (apply assign_val; rewrite length_insert; lia).
  set (ti := fresh (dom (heap s2))).
  pose proof (fresh_cell (heap s2)) as Htf. fold ti in Htf.
  set (k := Z.to_nat signer).
  replace (Z.to_nat (2 * signer)) with (2 * k)%nat by lia.
  replace (Z.to_nat (2 * signer + 1)) with (2 * k + 1)%nat by lia.
  intros [= <- <-]. cbn [Ctlist heap set_heap].
  assert (forall p, heap s0 !! p = None -> heap s !! p = None) as Hs0
    by (intros p; cbn; by rewrite lookup_alter_None).
  assert (forall (v : Z) p, is_Some (heap s2 !! p) ->
                            is_Some (<[ti := v]> (heap s2) !! p)) as Hs3.
  { intros v p [y Hy]. exists y. eapply lookup_weaken; [exact Hy|].
    by apply insert_subseteq. }
  assert (forall i p, locs !! i = Some p -> p <> c /\ p <> ti) as Hold.
  { intros i p Hi. rewrite Forall_forall in Hnew.
    destruct (Hnew p) as [_ [y Hy]]; [by eapply list_elem_of_lookup_2|].
    split; intros ->; [congruence|].
    apply (lookup_weaken _ _ _ _ Hy) in Hsub2. congruence. }
  assert (c <> ti) as Hcti by (intros Heq; destruct Hcs as [y Hy]; congruence).
  split.
  - apply NoDup_alt. intros i j p Hi Hj.
    apply list_lookup_insert_Some in Hi as [(<- & <- & _)|[Hi1 Hi]];
      apply list_lookup_insert_Some in Hj as [(<- & Hp & _)|[Hj1 Hj]];
      try done.
    + apply list_lookup_insert_Some in Hj as [(_ & Hp & _)|[_ Hj]];
        [done|by destruct (Hold _ _ Hj)].
    + apply list_lookup_insert_Some in Hi as [(_ & Hp' & _)|[_ Hi]];
        [congruence|]. subst p. by destruct (Hold _ _ Hi).
    + apply list_lookup_insert_Some in Hi as [(<- & <- & _)|[Hi2 Hi]];
        apply list_lookup_insert_Some in Hj as [(<- & Hp & _)|[Hj2 Hj]];
        try done.
      * by destruct (Hold _ _ Hj).
      * subst p. by destruct (Hold _ _ Hi).
      * destruct (decide (i = j)) as [|Hne]; [done|exfalso].
        destruct (decide (i < j)%nat).
        -- destruct (Hpair i j p) as (_ & Hi' & _); [lia|done..|]. lia.
        -- destruct (Hpair j i p) as (_ & Hj' & _); [lia|done..|]. lia.
  - apply Forall_insert; [apply Forall_insert|].
    + eapply Forall_impl; [exact Hnew|]. intros p [Hn [y Hy]].
      split; [by apply Hs0|]. apply Hs3. exists y. by eapply lookup_weaken.
    + split; [|by apply Hs3]. apply Hs0.
      destruct (heap s0 !! c) as [y|] eqn:Hy; [|done].
      apply (lookup_weaken _ _ _ _ Hy) in Hsub1. congruence.
    + split; [|by rewrite lookup_insert_eq]. apply Hs0.
      destruct (heap s0 !! ti) as [y|] eqn:Hy; [|done].
      apply (lookup_weaken _ _ _ _ Hy) in Hsub1.
      apply (lookup_weaken _ _ _ _ Hsub1) in Hsub2. congruence.
Qed.

End CellsProofs.

(** *** Signing with every key of the ring *)

Section SignaturesProofs.
Context {C : Curve} {H : Sha256} `{!CurveLaws C}.

(** [Signature] with the secret of the key at the signer's index: the
    signature it returns is accepted. *)
Lemma Signature_valid r pk message signer s x :
  heap s !! pk = Some x ->
  1 <= x < Order ->
  0 <= signer < Z.of_nat (length (PubKeys r)) ->
  PubKeys r !! Z.to_nat signer = Some (ScalarBaseMult x) ->
  (forall k, 1 <= tape s k < Order) ->
  exists sigma s',
    Signature r pk message signer s = Val (sigma, s') /\
    accepted (heap s') r message sigma /\
    heap s ⊆ heap s' /\
    tape s' = tape s.
Proof.
  intros Hpk Hx Hin Hkey Hdraws.
  pose proof Order_pos as HN.
  destruct (Signature_val r pk message signer s x Hpk Hin)
    as (rv & Hrv & sigma & s1 & Hsig & Htau & Hlen & Hflat & Hsub & Htape).
  rewrite (Z.mod_small x) in * by lia.
  rewrite insert_id in Hsub by done.
  set (hashp := NewCurvePointFromHash (copy32 message)) in *.
  set (tr := sign_trace signer (tape s) 0 (drawn s) (PubKeys r)) in *.
  set (hashn := fold_left _ (zip (PubKeys r) tr) _) in *.
  set (cS := (SetBytes hashn mod Order - sum_c tr mod Order) mod Order) in *.
  set (tS := (rv - (cS * x) mod Order) mod Order) in *.
  assert (0 <= cS < Order) as HcS by (by apply Z.mod_pos_bound).
  assert (0 <= tS < Order) as HtS by (by apply Z.mod_pos_bound).
  exists sigma, s1. split; [done|]. split; [|done].
  exists (map (final_pair cS tS) tr). repeat split.
  - rewrite length_map. apply sign_trace_length.
  - done.
  - by apply final_pairs_in_range.
  - unfold verdict, verify_fold. fold hashp. rewrite Htau.
    apply bool_decide_eq_true.
    destruct (chain_agree hashp signer (tape s) x cS tS Hdraws) with
      (rest := PubKeys r) (j := 0%nat) (d := drawn s)
      (v := {| v_hashAcc := Sum256 (take 32 (Marshal hashp)
                                      ++ Marshal (ScalarMult hashp x));
               v_csum := 0 |}) as [Hhash Hsum]; [lia|done|done| | |].
    + intros i pk' Hi Hs. replace i with (Z.to_nat signer) in Hi by lia.
      congruence.
    + fold tr. rewrite Hrv. by intros r' [= <-].
    + fold tr in Hhash, Hsum. rewrite Hsum, Hhash. cbn [v_hashAcc v_csum].
      fold hashn. rewrite Hrv, Z.add_0_l. apply mod_cancel_sum.
Qed.

(** The loop of [Signatures] over private keys [good] that match the
    public keys at their indices: it appends one accepted signature for
    each and goes on with the keys that remain. *)
Lemma Signatures_from_prefix r message (good : list positive) :
  forall i acc s tail,
    (forall k priv, good !! k = Some priv ->
       exists x,
         heap s !! priv = Some x /\ 1 <= x < Order /\
         PubKeys r !! (i + k)%nat = Some (derivePublicKey x)) ->
    (forall k, 1 <= tape s k < Order) ->
    Forall (accepted (heap s) r message) acc ->
    exists sigs s',
      Signatures_from r message i (good ++ tail) acc s
      = Signatures_from r message (i + length good) tail (acc ++ sigs) s' /\
      length sigs = length good /\
      Forall (accepted (heap s') r message) (acc ++ sigs) /\
      heap s ⊆ heap s' /\
      tape s' = tape s.
Proof.
  induction good as [|priv good IH]; intros i acc s tail Hkeys Hdraws Hacc.
  - exists [], s. cbn [app length]. by rewrite Nat.add_0_r, app_nil_r.
  - destruct (Hkeys 0%nat priv eq_refl) as (x & Hx & Hxr & Hpub).
    rewrite Nat.add_0_r in Hpub.
    destruct (PubKeyIndex_member r i _ Hpub) as [Hle Hat].
    set (signerNumber := PubKeyIndex r (derivePublicKey x)) in *.
    assert (0 <= signerNumber < Z.of_nat (length (PubKeys r))) as Hrange
      by (apply lookup_lt_Some in Hat; lia).
    destruct (Signature_valid r priv message signerNumber s x
                Hx Hxr Hrange Hat Hdraws)
      as (sigma & s1 & Hsig & Hok & Hsub & Htape).
    destruct (IH (Datatypes.S i) (acc ++ [sigma]) s1 tail)
      as (sigs & s' & Hrun & Hlen' & Hall & Hsub' & Htape').
    + intros k p Hk. destruct (Hkeys (Datatypes.S k) p Hk) as (y & Hy & Hyr & Hyp).
      exists y. split; [by eapply lookup_weaken|]. split; [done|].
      by replace (Datatypes.S i + k)%nat with (i + Datatypes.S k)%nat by lia.
    + intros k. rewrite Htape. apply Hdraws.
    + apply Forall_app. split.
      * eapply Forall_impl; [exact Hacc|]. intros sg. by apply accepted_weaken.
      * by apply Forall_singleton.
    + exists (sigma :: sigs), s'.
      cbn [app Signatures_from length].
      mrun (by apply lift_index_val).
      mrun (exact Hsig).
      rewrite Hrun. rewrite <- app_assoc in Hall |- *. cbn [app] in Hall |- *.
      replace (i + Datatypes.S (length good))%nat
        with (Datatypes.S i + length good)%nat by lia.
      repeat split; try done; [cbn; lia|by etrans|congruence].
Qed.

Lemma Signatures_accepted r message s :
  owns_keys (heap s) r ->
  (forall k, 1 <= tape s k < Order) ->
  exists sigs s',
    Signatures r message s = Val (sigs, s') /\
    length sigs = length (PrivKeys r) /\
    Forall (accepted (heap s') r message) sigs /\
    heap s ⊆ heap s' /\
    tape s' = tape s.
Proof.
  intros Hown Hdraws.
  destruct (Signatures_from_prefix r message (PrivKeys r) 0 [] s [])
    as (sigs & s' & Hrun & Hlen & Hall & Hsub & Htape); [done..|].
  exists sigs, s'. unfold Signatures.
  rewrite app_nil_r in Hrun. by rewrite Hrun.
Qed.

(** X10. [Signatures] signs for every member.  On a ring whose private
    keys are valid secrets, each with its public key at the same index of
    the ring (which may hold further public keys, and may hold a key
    twice), and with draws in [[1, N)], [Signatures] returns one
    signature for each private key, and [VerifySignature] accepts every
    one of them in the state [Signatures] leaves, without changing it. *)
Theorem Signatures_complete (r : Ring) (message : list byte) (s : state) :
  owns_keys (heap s) r ->
  (forall k, 1 <= tape s k < Order) ->
  exists sigs s',
    Signatures r message s = Val (sigs, s') /\
    length sigs = length (PrivKeys r) /\
    (forall sigma, sigma ∈ sigs ->
       VerifySignature r message sigma s' = Val (true, s')) /\
    heap s ⊆ heap s'.
Proof.
  intros Hown Hdraws.
  destruct (Signatures_accepted r message s Hown Hdraws)
    as (sigs & s' & Hrun & Hlen & Hall & Hsub & _).
  exists sigs, s'. repeat split; try done.
  intros sigma Hin. apply accepted_verifies.
  rewrite Forall_forall in Hall. by apply Hall.
Qed.

(** X11. [Signatures] does not check that every private key has a
    public key.  On a ring with more private than public keys, the
    private keys up to the number of public keys as above, the loop
    reaches an index that [PubKeys] does not have, and the call panics;
    the signatures made until then are lost. *)
Theorem Signatures_more_private_keys (r : Ring) (message : list byte)
    (s : state) :
  (length (PubKeys r) < length (PrivKeys r))%nat ->
  owns_keys (heap s)
    {| PubKeys := PubKeys r;
       PrivKeys := take (length (PubKeys r)) (PrivKeys r) |} ->
  (forall k, 1 <= tape s k < Order) ->
  Signatures r message s = Panic.
Proof.
  intros Hlen Hown Hdraws.
  set (n := length (PubKeys r)) in *.
  destruct (drop n (PrivKeys r)) as [|priv tail] eqn:Hdrop.
  { apply (f_equal length) in Hdrop. rewrite length_drop in Hdrop.
    cbn in Hdrop. lia. }
  destruct (Signatures_from_prefix r message (take n (PrivKeys r)) 0 [] s
              (priv :: tail))
    as (sigs & s' & Hrun & _); [exact Hown|done..|].
  rewrite <- Hdrop, take_drop in Hrun.
  unfold Signatures. rewrite Hrun, Hdrop. cbn [Signatures_from].
  apply bind_M_panic. unfold index.
  rewrite lookup_ge_None_2; [done|].
  rewrite length_take. lia.
Qed.

(** X17. Generating a ring and signing with it.  From a ring with
    equally many public and private keys that match (the empty ring, for
    one), [Generate] followed by [Signatures] returns one signature for
    every key of the ring, old and new, and [VerifySignature] accepts
    each of them for the generated ring. *)
Theorem Generate_then_Signatures (r : Ring) (n : Z) (message : list byte)
    (s : state) :
  length (PubKeys r) = length (PrivKeys r) ->
  owns_keys (heap s) r ->
  (forall k, 1 <= tape s k < Order) ->
  exists r' s1 sigs s2,
    Generate r n s = Val (r', s1) /\
    Signatures r' message s1 = Val (sigs, s2) /\
    length sigs = (length (PrivKeys r) + Z.to_nat n)%nat /\
    forall sigma, sigma ∈ sigs ->
      VerifySignature r' message sigma s2 = Val (true, s2).
Proof.
  intros Hlen Hown Hdraws.
  destruct (Generate_owns r n s Hlen Hown Hdraws)
    as (r' & s1 & Hgen & Hown' & _ & Hlen' & _ & Htape).
  destruct (Signatures_accepted r' message s1 Hown')
    as (sigs & s2 & Hrun & Hl & Hall & _); [by rewrite Htape|].
  exists r', s1, sigs, s2. repeat split; try done; [congruence|].
  intros sigma Hin. apply accepted_verifies.
  rewrite Forall_forall in Hall. by apply Hall.
Qed.

End SignaturesProofs.

(** ** The small instance: its laws, and the theorems at concrete inputs *)

Lemma is_val_returns {A : Type} (x : res A) :
  is_val x = true -> exists a, x = Val a.
Proof. destruct x; [by eexists|done..]. Qed.

(** Proves an equation between closed terms by evaluating both sides. *)
Ltac vm_refl :=
  lazymatch goal with
  | |- @eq ?T ?a ?b => vm_cast_no_check (@eq_refl T b)
  end.

(** Proves closed comparisons of integers by evaluation. *)
Ltac zcmp :=
  vm_compute; repeat split;
  first [reflexivity | let Hcmp := fresh in intro Hcmp; discriminate Hcmp].

(** Proves that the listed cells of a concrete heap exist. *)
Ltac cells_exist :=
  vm_compute; repeat (apply Forall_cons; split; [by eexists|]); by apply Forall_nil.

Section ToyFacts.
Existing Instance Toy.curve.
Existing Instance Toy.sha.

Lemma toy_laws : CurveLaws Toy.curve.
Proof.
  split; cbn; unfold Toy.N.
  - intros a b _ _. by rewrite <- Zplus_mod.
  - intros a b _ _. by rewrite Z.mul_mod_idemp_l.
  - intros a _. by rewrite Z.mod_mod.
  - intros P a b _ _. by rewrite <- Zplus_mod, Z.mul_add_distr_l.
  - intros P a b _ _. by rewrite Z.mul_mod_idemp_l, Z.mul_assoc.
  - intros P a _. by rewrite Z.mul_mod_idemp_r.
  - intros k Hk. rewrite Z.mod_mod, Z.mod_small by lia.
    apply negb_true_iff, Z.eqb_neq. lia.
Qed.

Lemma toy_draws_range (k : nat) : 1 <= Toy.draws k < Toy.N.
Proof.
  unfold Toy.draws, Toy.N.
  pose proof (Z.mod_pos_bound (3 * Z.of_nat k + 4) (11 - 1)). lia.
Qed.

(** C1 at a concrete input: member 1 of the three-key ring signs with
    the secret 3. *)
Lemma ring_signature_complete_witness :
  exists sigma s1 s2,
    Signature Toy.ring3 1%positive Toy.msg32 1 (Toy.start {[1%positive := 3]})
      = Val (sigma, s1) /\
    VerifySignature Toy.ring3 Toy.msg32 sigma s1 = Val (true, s2).
Proof.
  apply (ring_signature_complete (CurveLaws0 := toy_laws)
           Toy.ring3 1%positive 3);
    [reflexivity|zcmp|reflexivity|zcmp|reflexivity|apply toy_draws_range].
Defined.

(** C2, counterexample.  With the secret 3 and the one-byte secret
    [00], whose checksum is 8 modulo 11, the stealth secret is 0:
    [StealthPrivDerive] returns nil, as its on-curve test rejects the
    neutral element, while [StealthPubDerive] on [[3]G] returns the
    neutral element. *)
Lemma stealth_derive_disagree :
  CurveLaws Toy.curve /\
  1 <= 3 < Order /\
  (3 + SetBytes (Sum256 [x00])) mod Order = 0 /\
  StealthPrivDerive 3 [x00] = None /\
  StealthPubDerive (derivePublicKey 3) [x00] = Some (ScalarBaseMult 0) /\
  derivePublicKey <$> StealthPrivDerive 3 [x00]
    <> StealthPubDerive (derivePublicKey 3) [x00].
Proof. split; [exact toy_laws|by vm_compute]. Qed.

(** C2 at a concrete input: the secret 3 and the bytes [01]. *)
Lemma stealth_derive_agree_witness :
  StealthPrivDerive 3 [x01] = Some ((3 + SetBytes (Sum256 [x01])) mod Order) /\
  derivePublicKey <$> StealthPrivDerive 3 [x01]
    = StealthPubDerive (derivePublicKey 3) [x01].
Proof.
  apply (stealth_derive_agree (CurveLaws0 := toy_laws) 3 [x01]); zcmp.
Defined.

(** C3 at a concrete input: the secret 3 signs the same message as
    member 1 of the three-key ring and, with other draws, as the only
    member of a one-key ring. *)
Lemma tau_is_key_image_witness :
  exists sigma1 s1 sigma2 s2,
    Signature Toy.ring3 1%positive Toy.msg32 1 (Toy.start {[1%positive := 3]})
      = Val (sigma1, s1) /\
    Signature Toy.ring1 2%positive Toy.msg32 0
      {| heap := {[2%positive := 3]}; tape := fun k => Toy.draws (k + 5);
         drawn := 0 |}
      = Val (sigma2, s2) /\
    Tau sigma1 = Tau sigma2.
Proof.
  destruct (is_val_returns
              (Signature Toy.ring3 1%positive Toy.msg32 1
                 (Toy.start {[1%positive := 3]})))
    as [[sigma1 s1] H1]; [vm_refl|].
  destruct (is_val_returns
              (Signature Toy.ring1 2%positive Toy.msg32 0
                 {| heap := {[2%positive := 3]};
                    tape := fun k => Toy.draws (k + 5); drawn := 0 |}))
    as [[sigma2 s2] H2]; [vm_refl|].
  exists sigma1, s1, sigma2, s2. split; [exact H1|]. split; [exact H2|].
  destruct (fun Ha Hb => tau_is_key_image _ _ _ _ 3 _ _ _ _ _ _ _ _ _
                            Ha Hb H1 H2) as (_ & _ & Heq);
    [reflexivity..|exact Heq].
Defined.

(** C4, counterexample.  On the one-key ring a signature with an empty
    [ct] list makes [VerifySignature] panic (index out of range), and a
    signature with three entries, one more than [2n], is accepted. *)
Lemma VerifySignature_wrong_length :
  value (VerifySignature Toy.ring1 Toy.msg32
           (Toy.sig1 []) (Toy.start ∅)) = Panic /\
  value (VerifySignature Toy.ring1 Toy.msg32
           (Toy.sig1 [1; 2; 3]%positive)
           (Toy.start {[1%positive := 4; 2%positive := 7; 3%positive := 0]}))
    = Val true.
Proof. by vm_compute. Qed.

(** C4 at a concrete input: the three-entry signature above. *)
Lemma VerifySignature_long_enough_witness :
  exists b s' cts,
    VerifySignature Toy.ring1 Toy.msg32
      (Toy.sig1 [1; 2; 3]%positive)
      (Toy.start {[1%positive := 4; 2%positive := 7; 3%positive := 0]})
      = Val (b, s') /\
    VerifySignature Toy.ring1 Toy.msg32
      (Toy.sig1 (take 2 [1; 2; 3]%positive))
      (Toy.start {[1%positive := 4; 2%positive := 7; 3%positive := 0]})
      = Val (b, s') /\
    length cts = 1%nat /\
    flat_vals {[1%positive := 4; 2%positive := 7; 3%positive := 0]}
      [1; 2; 3]%positive cts /\
    b = verdict Toy.ring1 Toy.msg32 (Tau (Toy.sig1 [])) cts.
Proof.
  apply (VerifySignature_long_enough (C := Toy.curve) Toy.ring1 Toy.msg32
           (Toy.sig1 [1; 2; 3]%positive));
    [vm_compute; lia|cells_exist].
Defined.

(** C5, counterexample.  [Signature] called with a secret cell that
    holds 14 leaves 3 in it, and [VerifySignature] turns the entries 15
    and 18 of the signature it accepts into 4 and 7. *)
Lemma arguments_are_overwritten :
  heap_after (Signature Toy.ring3 1%positive Toy.msg32 1
                (Toy.start {[1%positive := 14]}))
    ≫= (.!! 1%positive) = Some 3 /\
  value (VerifySignature Toy.ring1 Toy.msg32
           (Toy.sig1 [1; 2]%positive)
           (Toy.start {[1%positive := 15; 2%positive := 18]})) = Val true /\
  heap_after (VerifySignature Toy.ring1 Toy.msg32
                (Toy.sig1 [1; 2]%positive)
                (Toy.start {[1%positive := 15; 2%positive := 18]}))
    = Some {[1%positive := 4; 2%positive := 7]}.
Proof. by vm_compute. Qed.

(** C5 at a concrete input: a secret cell holding 16 and the
    signature with the entries 15 and 18. *)
Lemma reduced_in_place_witness :
  (exists sg s',
     Signature Toy.ring1 1%positive Toy.msg32 0 (Toy.start {[1%positive := 16]})
       = Val (sg, s') /\
     heap s' !! 1%positive = Some 5) /\
  (exists b s',
     VerifySignature Toy.ring1 Toy.msg32
       (Toy.sig1 [1; 2]%positive)
       (Toy.start {[1%positive := 15; 2%positive := 18]}) = Val (b, s') /\
     heap s' !! 1%positive = Some 4 /\ heap s' !! 2%positive = Some 7).
Proof.
  destruct (reduced_in_place (C := Toy.curve) Toy.ring1 1%positive 16 Toy.msg32 0
              (Toy.start {[1%positive := 16]})
              (Toy.sig1 [1; 2]%positive)
              (Toy.start {[1%positive := 15; 2%positive := 18]}))
    as [(sg & s' & Hsig & _ & Hframe) (b & s2 & Hver & _ & _ & Hcells)];
    [reflexivity|zcmp|vm_compute; lia|cells_exist|].
  split.
  - exists sg, s'. split; [exact Hsig|]. exact (Hframe 1%positive 16 eq_refl).
  - exists b, s2. split; [exact Hver|].
    split; [exact (Hcells 1%positive)|exact (Hcells 2%positive)].
Defined.

(** C6, at the failing input.  With my secret 3, their public key
    [[4]G] and the nonce 2, [StealthPubDerive] succeeds and
    [StealthPrivDerive] returns nil (the stealth secret is 0): the
    session construction panics instead of returning an error that
    names index 0. *)
Theorem NewStealthSession_priv_nil_unchecked :
  let secret := secret_at (deriveSharedSecret 3 4) 2 0 in
  isValidSecretKey 3 = true /\
  StealthPubDerive (4 : @CurvePoint Toy.curve) secret = Some 1 /\
  StealthPrivDerive 3 secret = None /\
  NewStealthSession 3 (Some 4) 2 1 = Panic.
Proof. repeat split; vm_refl. Qed.

(** C7, counterexample.  With [nonce_offset = MaxInt] and [count = 2]
    the call succeeds, and the nonce at index 1 is [MinInt], not
    [MaxInt + 1]. *)
Lemma NewStealthSession_nonce_wraps :
  (fun sess => (sa_Nonce <$> TheirAddresses sess !! 1%nat,
                psa_Nonce <$> MyAddresses sess !! 1%nat))
    <$> NewStealthSession 3 (Some 4) MaxInt 2
    = Val (Some MinInt, Some MinInt) /\
  MinInt <> MaxInt + 1.
Proof. by vm_compute. Qed.

(** C7 at a concrete input: three addresses from nonce 10, and no
    address from nonce 10. *)
Lemma NewStealthSession_invariant_witness :
  (NewStealthSession 3 (Some 4) 10 3 = Val Toy.session10 /\
   length (TheirAddresses Toy.session10) = Z.to_nat 3 /\
   length (MyAddresses Toy.session10) = Z.to_nat 3 /\
   forall i : nat, (i < Z.to_nat 3)%nat ->
     exists sa psa,
       TheirAddresses Toy.session10 !! i = Some sa /\
       MyAddresses Toy.session10 !! i = Some psa /\
       sa_Nonce sa = int_wrap (10 + Z.of_nat i) /\
       psa_Nonce psa = int_wrap (10 + Z.of_nat i) /\
       (10 + Z.of_nat i <= MaxInt ->
        sa_Nonce sa = 10 + Z.of_nat i /\ psa_Nonce psa = 10 + Z.of_nat i) /\
       psa_Public psa = derivePublicKey (psa_Private psa)) /\
  NewStealthSession 3 (Some 4) 10 0
    = Val (@Build_StealthSession Toy.curve (derivePublicKey 3) 4
             (deriveSharedSecret 3 4) [] []).
Proof.
  destruct (NewStealthSession_invariant (C := Toy.curve) (H := Toy.sha)
              3 4 10 3) as [Hall Hzero]; [zcmp..|].
  assert (NewStealthSession 3 (Some 4) 10 3 = Val Toy.session10) as Hs
    by vm_refl.
  exact (conj (conj Hs (Hall Toy.session10 Hs)) Hzero).
Defined.

(** C8, counterexample.  [Signature] signs the empty message. *)
Lemma Signature_accepts_empty_message :
  length ([] : list byte) <> 32%nat /\
  value (Signature Toy.ring3 1%positive [] 1 (Toy.start {[1%positive := 3]}))
    = Val (@Build_RingSignature Toy.curve 3 [2; 3; 8; 9; 6; 7]%positive).
Proof. split; [done|vm_refl]. Qed.

(** C8 at a concrete input: a two-byte message. *)
Lemma Signature_any_length_witness :
  (exists sigma s',
     Signature Toy.ring3 1%positive [x01; x02] 1 (Toy.start {[1%positive := 3]})
       = Val (sigma, s')) /\
  Signature Toy.ring3 1%positive [x01; x02] 1 (Toy.start {[1%positive := 3]})
    = Signature Toy.ring3 1%positive (copy32 [x01; x02]) 1
        (Toy.start {[1%positive := 3]}) /\
  length (copy32 [x01; x02]) = 32%nat.
Proof.
  apply (Signature_any_length Toy.ring3 1%positive 3); [reflexivity|zcmp].
Defined.

End ToyFacts.

(** *** The further properties at concrete inputs *)

Section ToyExtras.
Existing Instance Toy.curve.
Existing Instance Toy.sha.

(** X1 at a concrete input: the secrets 3 and 4. *)
Lemma deriveSharedSecret_symmetric_witness :
  deriveSharedSecret 3 (derivePublicKey 4)
  = deriveSharedSecret 4 (derivePublicKey 3).
Proof.
  apply (deriveSharedSecret_symmetric (CurveLaws0 := toy_laws) 3 4); lia.
Defined.

(** X2 at a concrete input: the secrets 3 and 4, two addresses from
    nonce 10. *)
Lemma sessions_agree_witness :
  exists mine theirs,
    NewStealthSession 3 (Some (derivePublicKey 4)) 10 2 = Val mine /\
    NewStealthSession 4 (Some (derivePublicKey 3)) 10 2 = Val theirs /\
    SharedSecret mine = SharedSecret theirs /\
    TheirPublic mine = MyPublic theirs /\
    map sa_Public (TheirAddresses mine) = map psa_Public (MyAddresses theirs) /\
    map sa_Nonce (TheirAddresses mine) = map psa_Nonce (MyAddresses theirs).
Proof.
  destruct (is_val_returns (NewStealthSession 3 (Some (derivePublicKey 4)) 10 2))
    as [mine Hm]; [vm_refl|].
  destruct (is_val_returns (NewStealthSession 4 (Some (derivePublicKey 3)) 10 2))
    as [theirs Ht]; [vm_refl|].
  exists mine, theirs. split; [exact Hm|]. split; [exact Ht|].
  exact (sessions_agree (CurveLaws0 := toy_laws) 3 4 10 2 mine theirs Hm Ht).
Defined.

(** X3 at a concrete input: the nonces 10, 11, 12 as a window of the
    nonces 9, ..., 12. *)
Lemma NewStealthSession_window_witness :
  exists sess,
    NewStealthSession 3 (Some 4) 9 (Z.of_nat (1 + 3)) = Val sess /\
    NewStealthSession 3 (Some 4) (9 + Z.of_nat 1) (Z.of_nat 3)
    = Val {| MyPublic := MyPublic sess;
             TheirPublic := TheirPublic sess;
             SharedSecret := SharedSecret sess;
             TheirAddresses := drop 1 (TheirAddresses sess);
             MyAddresses := drop 1 (MyAddresses sess) |}.
Proof.
  destruct (is_val_returns
              (NewStealthSession (C := Toy.curve) 3 (Some 4) 9 (Z.of_nat (1 + 3))))
    as [sess Hs]; [vm_refl|].
  exists sess. split; [exact Hs|].
  exact (NewStealthSession_window (C := Toy.curve) 3 4 9 1 3 sess Hs).
Defined.

(** X4 at a concrete input: the nonces -1 and 1 of the session that
    starts at -1. *)
Lemma NewStealthSession_nonce_sign_witness :
  NewStealthSession 3 (Some 4) (-1) 3 = Val Toy.session_neg /\
  (sa_Public <$> TheirAddresses Toy.session_neg !! 0%nat)
  = (sa_Public <$> TheirAddresses Toy.session_neg !! 2%nat) /\
  (psa_Private <$> MyAddresses Toy.session_neg !! 0%nat)
  = (psa_Private <$> MyAddresses Toy.session_neg !! 2%nat) /\
  (psa_Public <$> MyAddresses Toy.session_neg !! 0%nat)
  = (psa_Public <$> MyAddresses Toy.session_neg !! 2%nat).
Proof.
  assert (NewStealthSession 3 (Some 4) (-1) 3 = Val Toy.session_neg) as Hs
    by vm_refl.
  split; [exact Hs|].
  destruct (fun Hi Hj Hi' Hj' Habs =>
              NewStealthSession_nonce_sign (C := Toy.curve) (H := Toy.sha)
                3 4 (-1) 3 Toy.session_neg 0 2
                (@Build_StealthAddress Toy.curve 0 (-1))
                (@Build_StealthAddress Toy.curve 0 1)
                (@Build_PrivateStealthAddress Toy.curve 10 (-1) 10)
                (@Build_PrivateStealthAddress Toy.curve 10 1 10)
                Hs Hi Hj Hi' Hj' Habs) as (Ha & Hb & Hc);
    [reflexivity..|].
  split; [exact (f_equal Some Ha)|].
  split; [exact (f_equal Some Hb)|exact (f_equal Some Hc)].
Defined.


Lemma toy_owns_nothing (h : gmap positive Z) : owns_keys h Toy.ring0.
Proof. intros i priv Hi. by destruct i. Qed.

Lemma toy_owns_keys3 : owns_keys Toy.keys3 Toy.ring3k.
Proof.
  intros [|[|[|i]]] priv Hi; vm_compute in Hi; try discriminate Hi;
    injection Hi as <-.
  - exists 5. split; [reflexivity|]. split; [zcmp|reflexivity].
  - exists 3. split; [reflexivity|]. split; [zcmp|reflexivity].
  - exists 7. split; [reflexivity|]. split; [zcmp|reflexivity].
Qed.

(** X9 at a concrete input: two keys for the empty ring. *)
Lemma Generate_keeps_pairs_witness :
  exists r' s',
    Generate Toy.ring0 2 (Toy.start ∅) = Val (r', s') /\
    owns_keys (heap s') r' /\
    length (PubKeys r') = length (PrivKeys r') /\
    length (PrivKeys r') = (0 + Z.to_nat 2)%nat /\
    ∅ ⊆ heap s' /\
    tape s' = Toy.draws.
Proof.
  apply (Generate_keeps_pairs (C := Toy.curve) Toy.ring0 2 (Toy.start ∅));
    [reflexivity|apply toy_owns_nothing|apply toy_draws_range].
Defined.

(** X10 at a concrete input: the three members sign. *)
Lemma Signatures_complete_witness :
  exists sigs s',
    Signatures Toy.ring3k Toy.msg32 (Toy.start Toy.keys3) = Val (sigs, s') /\
    length sigs = 3%nat /\
    (forall sigma, sigma ∈ sigs ->
       VerifySignature Toy.ring3k Toy.msg32 sigma s' = Val (true, s')) /\
    Toy.keys3 ⊆ heap s'.
Proof.
  apply (Signatures_complete (CurveLaws0 := toy_laws) Toy.ring3k Toy.msg32
           (Toy.start Toy.keys3));
    [apply toy_owns_keys3|apply toy_draws_range].
Defined.

(** X11 at a concrete input: one public key, two private keys. *)
Lemma Signatures_more_private_keys_witness :
  Signatures Toy.ring12 Toy.msg32
    (Toy.start {[1%positive := 5; 2%positive := 3]}) = Panic.
Proof.
  apply (Signatures_more_private_keys (CurveLaws0 := toy_laws) Toy.ring12
           Toy.msg32 (Toy.start {[1%positive := 5; 2%positive := 3]}));
    [vm_compute; lia| |apply toy_draws_range].
  intros [|i] priv Hi; vm_compute in Hi; try discriminate Hi;
    injection Hi as <-.
  exists 5. split; [reflexivity|]. split; [zcmp|reflexivity].
Defined.

(** X13 at a concrete input: member 1 of the three-key ring signs. *)
Lemma Signature_entries_reduced_witness :
  exists sigma s1 b,
    Signature Toy.ring3 1%positive Toy.msg32 1 (Toy.start {[1%positive := 3]})
      = Val (sigma, s1) /\
    length (Ctlist sigma) = 6%nat /\
    Forall (fun p => exists v, heap s1 !! p = Some v /\ 0 <= v < Order)
      (Ctlist sigma) /\
    VerifySignature Toy.ring3 Toy.msg32 sigma s1 = Val (b, s1).
Proof.
  apply (Signature_entries_reduced (C := Toy.curve) Toy.ring3 1%positive 3);
    [reflexivity|zcmp|apply toy_draws_range].
Defined.

(** X14 at a concrete input: the signature with the entries 15 and
    18. *)
Lemma VerifySignature_twice_witness :
  exists b s',
    VerifySignature Toy.ring1 Toy.msg32 (Toy.sig1 [1; 2]%positive)
      (Toy.start {[1%positive := 15; 2%positive := 18]}) = Val (b, s') /\
    VerifySignature Toy.ring1 Toy.msg32 (Toy.sig1 [1; 2]%positive) s'
      = Val (b, s').
Proof.
  apply (VerifySignature_twice (C := Toy.curve) Toy.ring1 Toy.msg32
           (Toy.sig1 [1; 2]%positive));
    [vm_compute; lia|cells_exist].
Defined.

(** X15 at a concrete input: the entries 4 and 7, and the entries 15
    and 18, which are 4 and 7 modulo 11. *)
Lemma VerifySignature_residues_witness :
  value (VerifySignature Toy.ring1 Toy.msg32 (Toy.sig1 [1; 2]%positive)
           (Toy.start {[1%positive := 15; 2%positive := 18]}))
  = value (VerifySignature Toy.ring1 Toy.msg32 (Toy.sig1 [1; 2]%positive)
             (Toy.start {[1%positive := 4; 2%positive := 7]})).
Proof.
  apply (VerifySignature_residues (C := Toy.curve) Toy.ring1 Toy.msg32
           (Toy.sig1 [1; 2]%positive) (Toy.sig1 [1; 2]%positive)
           (Toy.start {[1%positive := 4; 2%positive := 7]})
           (Toy.start {[1%positive := 15; 2%positive := 18]})
           [(4, 7)] [(15, 18)]).
  - reflexivity.
  - apply flat_vals_cons; [reflexivity..|apply flat_vals_nil].
  - apply flat_vals_cons; [reflexivity..|apply flat_vals_nil].
  - reflexivity.
  - constructor; [split; reflexivity|constructor].
Defined.

(** X16 at a concrete input: the key at index 1 of the three-key
    ring. *)
Lemma PubKeyIndex_of_member_witness :
  0 <= PubKeyIndex Toy.ring3 (ScalarBaseMult 3) <= Z.of_nat 1 /\
  PubKeys Toy.ring3 !! Z.to_nat (PubKeyIndex Toy.ring3 (ScalarBaseMult 3))
    = Some (ScalarBaseMult 3) /\
  (NoDup (PubKeys Toy.ring3) ->
   PubKeyIndex Toy.ring3 (ScalarBaseMult 3) = Z.of_nat 1).
Proof.
  apply (PubKeyIndex_of_member (C := Toy.curve) Toy.ring3 1 (ScalarBaseMult 3)).
  reflexivity.
Defined.

(** X17 at a concrete input: two keys generated for the empty ring
    sign. *)
Lemma Generate_then_Signatures_witness :
  exists r' s1 sigs s2,
    Generate Toy.ring0 2 (Toy.start ∅) = Val (r', s1) /\
    Signatures r' Toy.msg32 s1 = Val (sigs, s2) /\
    length sigs = (0 + Z.to_nat 2)%nat /\
    forall sigma, sigma ∈ sigs ->
      VerifySignature r' Toy.msg32 sigma s2 = Val (true, s2).
Proof.
  apply (Generate_then_Signatures (CurveLaws0 := toy_laws) Toy.ring0 2
           Toy.msg32 (Toy.start ∅));
    [reflexivity|apply toy_owns_nothing|apply toy_draws_range].
Defined.

(** X18 at a concrete input: a byte appended to the 32-byte message. *)
Lemma first_32_bytes_count_witness :
  VerifySignature Toy.ring1 (Toy.msg32 ++ [x07]) (Toy.sig1 [1; 2]%positive)
    (Toy.start {[1%positive := 4; 2%positive := 7]})
    = VerifySignature Toy.ring1 Toy.msg32 (Toy.sig1 [1; 2]%positive)
        (Toy.start {[1%positive := 4; 2%positive := 7]}) /\
  Signature Toy.ring1 1%positive (Toy.msg32 ++ [x07]) 0
    (Toy.start {[1%positive := 5]})
    = Signature Toy.ring1 1%positive Toy.msg32 0 (Toy.start {[1%positive := 5]}).
Proof.
  split.
  - apply (first_32_bytes_count (C := Toy.curve) Toy.ring1 1%positive
             Toy.msg32 [x07] 0).
    left. vm_compute. lia.
  - apply (first_32_bytes_count (C := Toy.curve) Toy.ring1 1%positive
             Toy.msg32 [x07] 0 (Toy.sig1 [])).
    left. vm_compute. lia.
Defined.

(** X19 at a concrete input: the session for the nonces 10, 11, 12. *)
Lemma NewStealthSession_guarantees_witness :
  NewStealthSession 3 (Some 4) 10 3 = Val Toy.session10 /\
  1 <= 3 < Order /\
  MyPublic Toy.session10 = derivePublicKey 3 /\
  length (SharedSecret Toy.session10) = 32%nat /\
  Forall (fun psa =>
            0 <= psa_Private psa < Order /\
            psa_Public psa = derivePublicKey (psa_Private psa) /\
            IsOnCurve (psa_Public psa) = true)
    (MyAddresses Toy.session10) /\
  (0 < 3 -> IsOnCurve (4 : @CurvePoint Toy.curve) = true).
Proof.
  assert (NewStealthSession 3 (Some 4) 10 3 = Val Toy.session10) as Hs
    by vm_refl.
  split; [exact Hs|].
  exact (NewStealthSession_guarantees (C := Toy.curve) (H := Toy.sha)
           3 4 10 3 Toy.session10 Hs).
Defined.

(** X20 at a concrete input: member 1 of the three-key ring signs with
    five draws. *)
Lemma Signature_draws_witness :
  exists sigma s',
    Signature Toy.ring3 1%positive Toy.msg32 1 (Toy.start {[1%positive := 3]})
      = Val (sigma, s') /\
    drawn s' = (0 + (2 * 3 - 1))%nat /\
    tape s' = Toy.draws.
Proof.
  destruct (is_val_returns
              (Signature Toy.ring3 1%positive Toy.msg32 1
                 (Toy.start {[1%positive := 3]})))
    as [[sigma s'] Hs]; [vm_refl|].
  exists sigma, s'. split; [exact Hs|].
  exact (Signature_draws (C := Toy.curve) Toy.ring3 1%positive 3 Toy.msg32 1
           (Toy.start {[1%positive := 3]}) sigma s' eq_refl Hs).
Defined.

(** X21 at a concrete input: member 1 of the three-key ring signs. *)
Lemma Signature_cells_new_witness :
  exists sigma s',
    Signature Toy.ring3 1%positive Toy.msg32 1 (Toy.start {[1%positive := 3]})
      = Val (sigma, s') /\
    NoDup (Ctlist sigma) /\
    Forall (fun p => ({[1%positive := 3]} : gmap positive Z) !! p = None /\
                     is_Some (heap s' !! p))
      (Ctlist sigma) /\
    1%positive ∉ Ctlist sigma.
Proof.
  destruct (is_val_returns
              (Signature Toy.ring3 1%positive Toy.msg32 1
                 (Toy.start {[1%positive := 3]})))
    as [[sigma s'] Hs]; [vm_refl|].
  exists sigma, s'. split; [exact Hs|].
  exact (Signature_cells_new (C := Toy.curve) Toy.ring3 1%positive 3 Toy.msg32 1
           (Toy.start {[1%positive := 3]}) sigma s' eq_refl Hs).
Defined.

(** X22 at a concrete input: the three-key ring extends the one-key
    ring. *)
Lemma PublicKeysHashed_app_witness :
  exists h,
    PublicKeysHashed Toy.ring1 = Val h /\
    PublicKeysHashed Toy.ring3
    = Val (fold_left (fun h pk => Sum256 (h ++ Marshal pk))
             [ScalarBaseMult 3; ScalarBaseMult 7] h).
Proof.
  destruct (is_val_returns (PublicKeysHashed Toy.ring1)) as [h Hh]; [vm_refl|].
  exists h. split; [exact Hh|].
  exact (PublicKeysHashed_app (C := Toy.curve) Toy.ring1 Toy.ring3
           [ScalarBaseMult 3; ScalarBaseMult 7] h eq_refl Hh).
Defined.

End ToyExtras.
